(** * heareval.tasks.util.luigi: the deterministic split assigner

    A shallow embedding of the pure helpers of
    [src/heareval/tasks/util/luigi.py]:

    - [filename_to_int_hash] (SHA-1 of the UTF-8 bytes of a [str], read as
      a base-16 integer),
    - [which_set] (the train / valid / test decision on [hash % 100]),
    - [new_basedir] ([os.path.join] after [os.path.split]),
    - the properties [stage_number] and [versioned_task_name] of [WorkTask]
      and the file names built from them.

    None of these reads or writes anything but its arguments (no module
    state, no randomness, no file or network access), which is what lets
    each be written as a function here.

    Python values are modelled as the interpreter has them: [int] is
    unbounded ([Z]), [float] is IEEE binary64 ([spec_float] at precision 53,
    [emax] 1024), a [str] is a sequence of Unicode code points, [bytes] a
    sequence of octets, and a call either returns a value or raises. *)

From Stdlib Require Import ZArith List String Ascii Bool Lia.
From Stdlib Require Decimal DecimalZ.
From Stdlib Require Import Floats.SpecFloat.
Import ListNotations.

Local Open Scope string_scope.
Local Open Scope list_scope.
Local Open Scope Z_scope.

(** ** Results of Python calls *)

Module Py.

(** The built-in exceptions the modelled code can raise. *)
Inductive exn : Set :=
  | AttributeError
  | OverflowError
  | UnicodeEncodeError
  | ValueError.

(** A call returns a value or raises. *)
Inductive result (A : Type) : Type :=
  | Ok (a : A)
  | Raise (e : exn).

Arguments Ok {A} a.
Arguments Raise {A} e.

Definition bind {A B : Type} (r : result A) (k : A -> result B) : result B :=
  match r with
  | Ok a => k a
  | Raise e => Raise e
  end.

Definition returns {A : Type} (r : result A) : Prop :=
  exists a, r = Ok a.

Definition raises {A : Type} (r : result A) : Prop :=
  exists e, r = Raise e.

End Py.

Export Py.

Declare Scope py_scope.
Delimit Scope py_scope with py.

Notation "x <- r ;; k" := (bind r (fun x => k))
  (at level 61, r at next level, right associativity) : py_scope.

(** ** Python numbers: [int] and [float] *)

Module Num.

(** binary64 *)
Definition prec : Z := 53.
Definition emax : Z := 1024.

Inductive number : Set :=
  | Int (z : Z)
  | Float (f : spec_float).

(** [float(z)] for an [int]: round to nearest, ties to even;
    [OverflowError] ("int too large to convert to float") when the rounded
    value is not finite. *)
Definition float_of_int (z : Z) : result spec_float :=
  match binary_normalize prec emax z 0 false with
  | S754_infinity _ => Raise OverflowError
  | f => Ok f
  end.

(** [a + b].  [int + int] is exact; as soon as one operand is a [float] the
    other one is converted with [float_of_int] and the sum is the binary64
    sum. *)
Definition add (a b : number) : result number :=
  match a, b with
  | Int x, Int y => Ok (Int (x + y))
  | Float x, Float y => Ok (Float (SFadd prec emax x y))
  | Int x, Float y =>
      bind (float_of_int x) (fun fx => Ok (Float (SFadd prec emax fx y)))
  | Float x, Int y =>
      bind (float_of_int y) (fun fy => Ok (Float (SFadd prec emax x fy)))
  end.

(** Comparison of an [int] with a [float] is exact in Python: the [int] is
    not rounded first.  [None] is the unordered case (NaN). *)
Definition compare_int_float (z : Z) (f : spec_float) : option comparison :=
  match f with
  | S754_nan => None
  | S754_infinity s => Some (if s then Gt else Lt)
  | S754_zero _ => Some (z ?= 0)
  | S754_finite s m e =>
      Some (if 0 <=? e
            then z ?= cond_Zopp s (Z.pos m) * 2 ^ e
            else z * 2 ^ (- e) ?= cond_Zopp s (Z.pos m))
  end.

Definition compare (a b : number) : option comparison :=
  match a, b with
  | Int x, Int y => Some (x ?= y)
  | Int x, Float y => compare_int_float x y
  | Float x, Int y => option_map CompOpp (compare_int_float y x)
  | Float x, Float y => SFcompare x y
  end.

(** [a < b], [a <= b], [a == b]: all [False] when a NaN is involved. *)
Definition ltb (a b : number) : bool :=
  match compare a b with
  | Some Lt => true
  | _ => false
  end.

Definition leb (a b : number) : bool :=
  match compare a b with
  | Some (Lt | Eq) => true
  | _ => false
  end.

Definition eqb (a b : number) : bool :=
  match compare a b with
  | Some Eq => true
  | _ => false
  end.

End Num.

Export Num.

Notation "a + b" := (add a b) : py_scope.
Notation "a <? b" := (ltb a b) : py_scope.
Notation "a <=? b" := (leb a b) : py_scope.
Notation "a =? b" := (eqb a b) : py_scope.

Coercion Int : Z >-> number.

(** ** [which_set] *)

(** [def which_set(filename_hash, validation_percentage, testing_percentage)]
    with [filename_hash] an [int]; [%] is Python's floored remainder, which
    is [Z.modulo] for the positive modulus 100. *)
Definition which_set (filename_hash : Z)
    (validation_percentage testing_percentage : number) : result string :=
  let percentage_hash := filename_hash mod 100 in
  (if Int percentage_hash <? validation_percentage then
     Ok "valid"
   else
     bound <- testing_percentage + validation_percentage ;;
     if Int percentage_hash <? bound then
       Ok "test"
     else
       Ok "train")%py.

(** ** [str] and [bytes] *)

Module Str.

(** A [str] is a sequence of Unicode code points, a [bytes] object a
    sequence of octets. *)
Definition str : Set := list Z.
Definition bytes : Set := list Z.

Definition code_point (c : Z) : Prop := 0 <= c < 0x110000.
Definition octet (b : Z) : Prop := 0 <= b < 256.

Definition surrogate (c : Z) : bool := (0xD800 <=? c) && (c <=? 0xDFFF).

(** A literal: each character of a Rocq string taken as the code point of
    the same number. *)
Definition lit (s : string) : str :=
  map (fun a => Z.of_N (N_of_ascii a)) (list_ascii_of_string s).

(** [str.encode("utf-8")] on one code point: one to four octets; the
    strict error handler refuses surrogates. *)
Definition encode_code_point (c : Z) : result bytes :=
  if c <? 0x80 then
    Ok [c]
  else if c <? 0x800 then
    Ok [Z.lor 0xC0 (Z.shiftr c 6);
        Z.lor 0x80 (Z.land c 0x3F)]
  else if c <? 0x10000 then
    if surrogate c then Raise UnicodeEncodeError
    else
      Ok [Z.lor 0xE0 (Z.shiftr c 12);
          Z.lor 0x80 (Z.land (Z.shiftr c 6) 0x3F);
          Z.lor 0x80 (Z.land c 0x3F)]
  else
    Ok [Z.lor 0xF0 (Z.shiftr c 18);
        Z.lor 0x80 (Z.land (Z.shiftr c 12) 0x3F);
        Z.lor 0x80 (Z.land (Z.shiftr c 6) 0x3F);
        Z.lor 0x80 (Z.land c 0x3F)].

Fixpoint encode_utf8 (s : str) : result bytes :=
  match s with
  | [] => Ok []
  | c :: rest =>
      (b <- encode_code_point c ;;
       bs <- encode_utf8 rest ;;
       Ok (b ++ bs))%py
  end.

(** [int(s, 16)] on the strings [hexdigest] produces: a non-empty run of
    ASCII hexadecimal digits.  Anything else is refused with [ValueError];
    the signs, prefixes, underscores and blanks that [int] also accepts do
    not occur in a hex digest. *)
Definition hex_value (c : Z) : option Z :=
  if (48 <=? c) && (c <=? 57) then Some (c - 48)
  else if (97 <=? c) && (c <=? 102) then Some (c - 87)
  else if (65 <=? c) && (c <=? 70) then Some (c - 55)
  else None.

Fixpoint int_digits (acc : Z) (s : str) : result Z :=
  match s with
  | [] => Ok acc
  | c :: rest =>
      match hex_value c with
      | Some d => int_digits (acc * 16 + d) rest
      | None => Raise ValueError
      end
  end.

Definition int_base16 (s : str) : result Z :=
  match s with
  | [] => Raise ValueError
  | _ => int_digits 0 s
  end.

End Str.

Export Str.

(** ** [hashlib.sha1] *)

Module SHA1.

(** 32-bit words are integers reduced modulo [2^32]. *)
Definition w32 (x : Z) : Z := x mod 2 ^ 32.

Definition rotl (n x : Z) : Z :=
  w32 (Z.lor (Z.shiftl x n) (Z.shiftr x (32 - n))).

Definition f (t : nat) (b c d : Z) : Z :=
  if (t <? 20)%nat then Z.lxor d (Z.land b (Z.lxor c d))
  else if (t <? 40)%nat then Z.lxor (Z.lxor b c) d
  else if (t <? 60)%nat then
    Z.lor (Z.lor (Z.land b c) (Z.land b d)) (Z.land c d)
  else Z.lxor (Z.lxor b c) d.

Definition K (t : nat) : Z :=
  if (t <? 20)%nat then 0x5A827999
  else if (t <? 40)%nat then 0x6ED9EBA1
  else if (t <? 60)%nat then 0x8F1BBCDC
  else 0xCA62C1D6.

(** Big-endian octets of a 64-bit and of a 32-bit quantity. *)
Definition be64 (x : Z) : bytes :=
  map (fun i => Z.shiftr x (8 * i) mod 256) [7; 6; 5; 4; 3; 2; 1; 0].

Definition be32 (x : Z) : bytes :=
  map (fun i => Z.shiftr x (8 * i) mod 256) [3; 2; 1; 0].

(** Padding: a [0x80] octet, zeros up to 56 modulo 64, then the bit length
    on eight octets. *)
Definition pad (msg : bytes) : bytes :=
  let l := Z.of_nat (List.length msg) in
  msg ++ [0x80] ++ repeat 0 (Z.to_nat ((55 - l) mod 64)) ++ be64 (8 * l).

Fixpoint words (block : bytes) : list Z :=
  match block with
  | a :: b :: c :: d :: rest =>
      (a * 2 ^ 24 + b * 2 ^ 16 + c * 2 ^ 8 + d) :: words rest
  | _ => []
  end.

(** The 64-octet blocks of a padded message. *)
Fixpoint blocks (fuel : nat) (m : bytes) : list bytes :=
  match fuel, m with
  | S fuel', _ :: _ => firstn 64 m :: blocks fuel' (skipn 64 m)
  | _, _ => []
  end.

(** The message schedule, most recent word first. *)
Definition next_word (rw : list Z) : Z :=
  rotl 1 (Z.lxor (Z.lxor (Z.lxor (nth 2 rw 0) (nth 7 rw 0)) (nth 13 rw 0))
                 (nth 15 rw 0)).

Definition schedule (block : bytes) : list Z :=
  rev (Nat.iter 64 (fun rw => next_word rw :: rw) (rev (words block))).

Record state : Set := State { h0 : Z; h1 : Z; h2 : Z; h3 : Z; h4 : Z }.

Definition init : state :=
  State 0x67452301 0xEFCDAB89 0x98BADCFE 0x10325476 0xC3D2E1F0.

Definition round (s : state) (tw : nat * Z) : state :=
  let (t, w) := tw in
  let '(State a b c d e) := s in
  State (w32 (rotl 5 a + f t b c d + e + K t + w)) a (rotl 30 b) c d.

Definition compress (s : state) (block : bytes) : state :=
  let w := schedule block in
  let '(State a b c d e) := fold_left round (combine (seq 0 80) w) s in
  State (w32 (h0 s + a)) (w32 (h1 s + b)) (w32 (h2 s + c))
        (w32 (h3 s + d)) (w32 (h4 s + e)).

Definition hash (msg : bytes) : state :=
  let m := pad msg in
  fold_left compress (blocks (List.length m) m) init.

(** [hashlib.sha1(msg).digest()]: the five words, big-endian. *)
Definition digest (msg : bytes) : bytes :=
  let '(State a b c d e) := hash msg in
  be32 a ++ be32 b ++ be32 c ++ be32 d ++ be32 e.

Definition hex_digit (n : Z) : Z :=
  if n <? 10 then 48 + n else 87 + n.

(** [hashlib.sha1(msg).hexdigest()]: two lower-case digits per octet. *)
Definition hexdigest (msg : bytes) : str :=
  flat_map (fun b => [hex_digit (b / 16); hex_digit (b mod 16)]) (digest msg).

End SHA1.

(** ** [filename_to_int_hash] *)

Definition filename_to_int_hash (text : str) : result Z :=
  (encoded <- encode_utf8 text ;;
   let hash_name_hashed := SHA1.hexdigest encoded in
   int_base16 hash_name_hashed)%py.

(** The unsigned integer whose big-endian octets are [b]
    ([int.from_bytes(b, "big")]). *)
Definition be_value (b : bytes) : Z :=
  fold_left (fun acc o => acc * 256 + o) b 0.

Definition no_surrogate (s : str) : Prop :=
  Forall (fun c => surrogate c = false) s.

(** The split a caller computes for an identifier:
    [which_set(filename_to_int_hash(id), v, t)]. *)
Definition split_of (id : str) (v t : number) : result string :=
  (digest <- filename_to_int_hash id ;; which_set digest v t)%py.

(** ** [os.path] (POSIX flavour) *)

Module Path.

Definition sep : Z := 47.

(** [p.rfind(sep)]: index of the last separator, [-1] when there is none. *)
Fixpoint rfind (p : str) : Z :=
  match p with
  | [] => -1
  | c :: rest =>
      let i := rfind rest in
      if 0 <=? i then 1 + i
      else if c =? sep then 0
      else -1
  end.

(** [p[:i]] and [p[i:]] for [0 <= i]. *)
Definition upto (i : Z) (p : str) : str := firstn (Z.to_nat i) p.
Definition from (i : Z) (p : str) : str := skipn (Z.to_nat i) p.

Definition all_sep (p : str) : bool := forallb (fun c => c =? sep) p.

(** [p.rstrip(sep)] *)
Fixpoint rstrip (p : str) : str :=
  match p with
  | [] => []
  | c :: rest =>
      match rstrip rest with
      | [] => if c =? sep then [] else [c]
      | rest' => c :: rest'
      end
  end.

Definition is_empty (p : str) : bool :=
  match p with [] => true | _ => false end.

(** [os.path.split(p)] *)
Definition split (p : str) : str * str :=
  let i := rfind p + 1 in
  let head := upto i p in
  let tail := from i p in
  let head :=
    if negb (is_empty head) && negb (all_sep head) then rstrip head
    else head in
  (head, tail).

Definition startswith_sep (p : str) : bool :=
  match p with
  | c :: _ => c =? sep
  | [] => false
  end.

Definition endswith_sep (p : str) : bool :=
  match rev p with
  | c :: _ => c =? sep
  | [] => false
  end.

(** [os.path.join(a, b)] *)
Definition join (a b : str) : str :=
  if startswith_sep b then b
  else if is_empty a || endswith_sep a then a ++ b
  else a ++ [sep] ++ b.

End Path.

(** ** [new_basedir] *)

Definition new_basedir (filename basedir : str) : str :=
  Path.join basedir (snd (Path.split filename)).

(** ** Percentages as values *)

(** The [float] of the same value as a small [int] (what [float(z)] is when
    it is finite), and the two ways a caller can write the percentage [z]:
    as the [int] [z] or as the [float] [z.0]. *)
Definition as_float (z : Z) : spec_float := binary_normalize prec emax z 0 false.

Definition written (z : Z) (x : number) : Prop :=
  x = Int z \/ x = Float (as_float z).

(** A Python [float] is a binary64 value: a [spec_float] whose mantissa and
    exponent are the canonical ones of the format. *)
Definition binary64 (x : number) : Prop :=
  match x with
  | Int _ => True
  | Float f => valid_binary prec emax f = true
  end.

(** Every finite binary64 value is a whole number of units of [2^emin]
    ([emin = -1074], the exponent of the smallest subnormal); [units m e]
    is [m * 2^e] counted in these units, for [emin <= e]. *)
Definition emin : Z := SpecFloat.emin prec emax.

Definition units (m e : Z) : Z := m * 2 ^ (e - emin).

(** Zero, a positive finite value with exponent in range, or [+inf]. *)
Definition nonneg_float (f : spec_float) : Prop :=
  match f with
  | S754_zero _ => True
  | S754_infinity s => s = false
  | S754_nan => False
  | S754_finite s m e => s = false /\ emin <= e
  end.

(** [f] is positive and not below [n * 2^c]. *)
Definition at_least (n c : Z) (f : spec_float) : Prop :=
  f = S754_infinity false \/
  exists m e, f = S754_finite false m e /\ emin <= e /\
              units n c <= units (Z.pos m) e.

Definition label (r : string) : Prop :=
  r = "train" \/ r = "valid" \/ r = "test".

(** ** Counting labels over digests *)

(** Whether a call returned the given label. *)
Definition gives (l : string) (r : result string) : bool :=
  match r with
  | Ok s => String.eqb s l
  | Raise _ => false
  end.

(** The hundred consecutive digests that start at [a]. *)
Definition window (a : Z) : list Z :=
  map (fun i => a + Z.of_nat i) (seq 0 100).

(** How many digests of [ds] get the label [l]. *)
Definition tally (l : string) (v t : number) (ds : list Z) : nat :=
  List.length (filter (fun d => gives l (which_set d v t)) ds).

(** ** [WorkTask] *)

Module WorkTask.

(** An object found in the list or in a dict value that [requires()]
    returns: a task, or an object of another kind, which has no attribute
    [stage_number]. *)
Inductive element (T : Type) : Type :=
  | IsTask (t : T)
  | NotTask.

Arguments IsTask {T} t.
Arguments NotTask {T}.

(** What [requires()] returns, as the [isinstance] tests of [stage_number]
    tell it apart: a [WorkTask], a list, a dict (each value a list or a
    single object), or something else.  Only the value itself is tested: the
    objects inside a list or a dict are taken as they come. *)
Inductive requirement (T : Type) : Type :=
  | ReqTask (t : T)
  | ReqList (xs : list (element T))
  | ReqDict (items : list (str * (element T + list (element T))))
  | ReqOther.

Arguments ReqTask {T} t.
Arguments ReqList {T} xs.
Arguments ReqDict {T} items.
Arguments ReqOther {T}.

(** A task: the stage number its class overrides the property with, if it
    does ("this should be overridden as 0 by any task that has no
    requirements"), and what its [requires()] returns. *)
#[warnings="-register-all"]
Inductive task : Type :=
  | Task (stage_override : option Z) (requires : requirement task).

Definition stage_override (t : task) : option Z :=
  match t with Task o _ => o end.

Definition requires (t : task) : requirement task :=
  match t with Task _ r => r end.

(** [max(l)] on a list of [int]s: [ValueError] when the list is empty. *)
Definition py_max (l : list Z) : result Z :=
  match l with
  | [] => Raise ValueError
  | x :: rest => Ok (fold_left Z.max rest x)
  end.

(** A list comprehension [[f(x) for x in l]]: left to right, stopping at the
    first call that raises. *)
Definition comprehension {A B : Type} (f : A -> result B)
  : list A -> result (list B) :=
  fix go (l : list A) : result (list B) :=
    match l with
    | [] => Ok []
    | a :: rest => (b <- f a ;; bs <- go rest ;; Ok (b :: bs))%py
    end.

(** [x.stage_number] on an object [x] of a list or dict: the property of a
    task, [AttributeError] on anything else. *)
Definition getattr_stage_number {T : Type} (stage : T -> result Z)
    (x : element T) : result Z :=
  match x with
  | IsTask t => stage t
  | NotTask => Raise AttributeError
  end.

(** The loop over [requires().values()] that builds [parentasks]: a list is
    spliced in, anything else is appended. *)
Definition parentasks {T : Type}
    (items : list (str * (element T + list (element T)))) : list (element T) :=
  flat_map (fun item => match snd item with
                        | inl x => [x]
                        | inr xs => xs
                        end) items.

(** The [stage_number] property.  In the dict case the stage numbers are
    taken item by item, which gives the list the source builds from
    [parentasks], and the same exception when one of them fails (lemma
    [dict_stages_parentasks] below). *)
Fixpoint stage_number (t : task) : result Z :=
  match t with
  | Task (Some n) _ => Ok n
  | Task None (ReqTask p) =>
      (n <- stage_number p ;; Ok (1 + n)%Z)%py
  | Task None (ReqList xs) =>
      (ns <- comprehension (getattr_stage_number stage_number) xs ;;
       m <- py_max ns ;;
       Ok (1 + m)%Z)%py
  | Task None (ReqDict items) =>
      (ns <- (fix dict_stages
                (items : list (str * (element task + list (element task))))
                : result (list Z) :=
                match items with
                | [] => Ok []
                | (_, inl x) :: rest =>
                    n <- getattr_stage_number stage_number x ;;
                    ns <- dict_stages rest ;;
                    Ok (n :: ns)
                | (_, inr xs) :: rest =>
                    ns1 <- comprehension (getattr_stage_number stage_number) xs ;;
                    ns2 <- dict_stages rest ;;
                    Ok (ns1 ++ ns2)
                end) items ;;
       m <- py_max ns ;;
       Ok (1 + m)%Z)%py
  | Task None ReqOther => Raise ValueError
  end.

(** [x.stage_number] for an object of a list or dict of tasks. *)
Definition stage_of (x : element task) : result Z :=
  getattr_stage_number stage_number x.

(** The objects whose [stage_number] a task reads, in the order the source
    visits them. *)
Definition elements (t : task) : list (element task) :=
  match requires t with
  | ReqTask p => [IsTask p]
  | ReqList xs => xs
  | ReqDict items => parentasks items
  | ReqOther => []
  end.

(** The tasks among a list of objects. *)
Definition tasks_of {T : Type} (xs : list (element T)) : list T :=
  flat_map (fun x => match x with
                     | IsTask t => [t]
                     | NotTask => []
                     end) xs.

(** The tasks a task requires directly, in the order the source visits
    them. *)
Definition parents (t : task) : list task :=
  tasks_of (elements t).

(** [chain t k q]: [k] requirement edges lead from [t] down to [q]. *)
Inductive chain : task -> nat -> task -> Prop :=
  | chain_here t : chain t 0 t
  | chain_step t p k q :
      In p (parents t) -> chain p k q -> chain t (S k) q.

(** [requires()] returns a list or a dict that holds nothing. *)
Definition no_requirements (t : task) : Prop :=
  requires t <> ReqOther /\ elements t = [].

(** The convention of the docstring holds at [t] and below: only a task
    that has no requirements overrides its stage number, and it overrides
    it with 0. *)
Inductive zero_leaves : task -> Prop :=
  | zero_leaves_leaf r :
      no_requirements (Task (Some 0) r) -> zero_leaves (Task (Some 0) r)
  | zero_leaves_node r :
      (forall p, In p (parents (Task None r)) -> zero_leaves p) ->
      zero_leaves (Task None r).


(** The decimal digits of a non-negative number, as characters. *)
Fixpoint digits (d : Decimal.uint) : str :=
  match d with
  | Decimal.Nil => []
  | Decimal.D0 r => 48 :: digits r
  | Decimal.D1 r => 49 :: digits r
  | Decimal.D2 r => 50 :: digits r
  | Decimal.D3 r => 51 :: digits r
  | Decimal.D4 r => 52 :: digits r
  | Decimal.D5 r => 53 :: digits r
  | Decimal.D6 r => 54 :: digits r
  | Decimal.D7 r => 55 :: digits r
  | Decimal.D8 r => 56 :: digits r
  | Decimal.D9 r => 57 :: digits r
  end.

(** [format(n, "02d")]: the decimal digits, with a minus sign for a
    negative number, padded with zeros after the sign to two characters. *)
Definition format_02d (n : Z) : str :=
  match Z.to_int n with
  | Decimal.Pos d =>
      let s := digits d in
      repeat 48 (2 - List.length s) ++ s
  | Decimal.Neg d => 45 :: digits d
  end.

(** The name of the marker file in [output()],
    [f"{self.stage_number:02d}-{self.task_id}.done"], and of the directory
    in [workdir], [f"{self.stage_number:02d}-{self.name}"]. *)
Definition output_name (t : task) (task_id : str) : result str :=
  (n <- stage_number t ;;
   Ok (format_02d n ++ lit "-" ++ task_id ++ lit ".done"))%py.

Definition workdir_name (t : task) (name : str) : result str :=
  (n <- stage_number t ;;
   Ok (format_02d n ++ lit "-" ++ name))%py.

(** [a < b] on [str]: lexicographic on code points, a proper prefix first. *)
Fixpoint str_ltb (a b : str) : bool :=
  match a, b with
  | _, [] => false
  | [], _ :: _ => true
  | x :: a', y :: b' => (x <? y) || ((x =? y) && str_ltb a' b')
  end.

(** [data_config[key]] on a config whose values are strings; [None] stands
    for [KeyError]. *)
Fixpoint lookup (key : str) (config : list (str * str)) : option str :=
  match config with
  | [] => None
  | (k, v) :: rest =>
      if list_eq_dec Z.eq_dec k key then Some v else lookup key rest
  end.

(** [versioned_task_name]:
    [f"{self.data_config['task_name']}-{self.data_config['version']}"]. *)
Definition versioned_task_name (data_config : list (str * str)) : option str :=
  match lookup (lit "task_name") data_config with
  | None => None
  | Some task_name =>
      match lookup (lit "version") data_config with
      | None => None
      | Some version => Some (task_name ++ lit "-" ++ version)
      end
  end.

End WorkTask.

(** * Properties *)

(** ** Buckets and comparisons *)

Lemma bucket_range (d : Z) : 0 <= d mod 100 <= 99.
Proof. pose proof (Z.mod_pos_bound d 100); lia. Qed.

Lemma ltb_Int (x y : Z) : (Int x <? Int y)%py = (x <? y).
Proof.
  unfold ltb, compare, Z.ltb. now destruct (x ?= y).
Qed.

Lemma leb_Int (x y : Z) : (Int x <=? Int y)%py = (x <=? y).
Proof.
  unfold leb, compare, Z.leb. now destruct (x ?= y).
Qed.

Lemma eqb_Int (x y : Z) : (Int x =? Int y)%py = (x =? y).
Proof.
  unfold eqb, compare.
  destruct (Z.compare_spec x y); destruct (Z.eqb_spec x y); auto; lia.
Qed.

(** [v <= b] and [b < v] exclude each other, whatever number [v] is. *)
Lemma leb_Int_r_not_ltb (v : number) (b : Z) :
  (v <=? Int b)%py = true -> (Int b <? v)%py = false.
Proof.
  unfold leb, ltb. destruct v as [z | f]; cbn [compare].
  - rewrite (Z.compare_antisym z b). now destruct (z ?= b).
  - now destruct (compare_int_float b f) as [[ | | ] | ].
Qed.

Lemma eqb_Int_l_not_ltb (v : number) (b : Z) :
  (Int b =? v)%py = true -> (Int b <? v)%py = false.
Proof.
  unfold eqb, ltb. now destruct (compare (Int b) v) as [[ | | ] | ].
Qed.

(** The number model on known values: conversion rounds ties to even and
    overflows from [2 ** 1024 - 2 ** 970] on, comparison of an [int] with a
    [float] is exact, and [0.1 + 0.2] is [0.30000000000000004]. *)
Example float_of_int_ties_to_even :
  float_of_int (2 ^ 53 + 1) = Ok (S754_finite false (2 ^ 52) 1).
Proof. reflexivity. Qed.

Example float_of_int_largest :
  float_of_int (2 ^ 1024 - 2 ^ 970 - 1)
  = Ok (S754_finite false (2 ^ 53 - 1) 971).
Proof. vm_compute. reflexivity. Qed.

Example float_of_int_overflow :
  float_of_int (2 ^ 1024 - 2 ^ 970) = Raise OverflowError.
Proof. vm_compute. reflexivity. Qed.

Example compare_int_float_exact :
  (Int (2 ^ 53 + 1) <=? Float (S754_finite false (2 ^ 52) 1))%py = false.
Proof. reflexivity. Qed.

Example float_sum_rounds :
  (Float (S754_finite false 0x1999999999999A (-56))
   + Float (S754_finite false 0x1999999999999A (-55)))%py
  = Ok (Float (S754_finite false 0x13333333333334 (-54))).
Proof. reflexivity. Qed.

(** The order of an [int] against a fixed [float] is monotone in the [int]. *)
Lemma compare_int_float_mono (x y : Z) (f : spec_float) :
  x <= y -> compare_int_float x f = Some Gt -> compare_int_float y f = Some Gt.
Proof.
  intros Hxy. destruct f as [s | s | | s m e]; cbn [compare_int_float]; try easy.
  - intros [= H]. f_equal. apply Z.compare_gt_iff in H. apply Z.compare_gt_iff. lia.
  - destruct (Z.leb_spec 0 e) as [He | He]; intros [= H]; f_equal;
      apply Z.compare_gt_iff in H; apply Z.compare_gt_iff; [lia | ].
    assert (0 < 2 ^ (- e)) by (apply Z.pow_pos_nonneg; lia). nia.
Qed.

(** ** What [which_set] computes, case by case *)

Lemma which_set_valid (d : Z) (v t : number) :
  (Int (d mod 100) <? v)%py = true -> which_set d v t = Ok "valid".
Proof. unfold which_set. now intros ->. Qed.

(** On [int] percentages the function is the plain three-way test. *)
Lemma which_set_Int (d v t : Z) :
  which_set d (Int v) (Int t) =
  Ok (if d mod 100 <? v then "valid"
      else if d mod 100 <? t + v then "test"
      else "train").
Proof.
  unfold which_set. cbn [add bind]. rewrite !ltb_Int.
  destruct (d mod 100 <? v); [reflexivity | ].
  now destruct (d mod 100 <? t + v).
Qed.

(** For every pair of numbers whose sum exists, the function is the
    three-way test against [v] and the computed sum. *)
Lemma which_set_cases (d : Z) (v t bound : number) :
  (t + v)%py = Ok bound ->
  which_set d v t =
  Ok (if (Int (d mod 100) <? v)%py then "valid"
      else if (Int (d mod 100) <? bound)%py then "test"
      else "train").
Proof.
  intros Hsum. unfold which_set. rewrite Hsum. cbn [bind].
  destruct (Int (d mod 100) <? v)%py; [reflexivity | ].
  now destruct (Int (d mod 100) <? bound)%py.
Qed.

(** The function raises exactly when the bucket is not below the validation
    percentage and the sum of the percentages cannot be formed. *)
Lemma which_set_raises_iff (d : Z) (v t : number) :
  raises (which_set d v t) <->
  (Int (d mod 100) <? v)%py = false /\ raises (t + v)%py.
Proof.
  unfold which_set, raises.
  destruct (Int (d mod 100) <? v)%py.
  - split; [intros [e He]; discriminate | intros [H _]; discriminate].
  - destruct (t + v)%py as [bound | e0]; cbn [bind].
    + split.
      * intros [e He]. destruct (Int (d mod 100) <? bound)%py; discriminate.
      * intros [_ [e He]]. discriminate.
    + split; [intros _; split; [reflexivity | now exists e0] | now exists e0].
Qed.

(** When the sum can be formed: always for two [int]s or two [float]s, and
    for an [int] with a [float] when the [int] converts. *)
Lemma add_returns_iff (a b : number) :
  returns (a + b)%py <->
  match a, b with
  | Int _, Int _ | Float _, Float _ => True
  | Int x, Float _ | Float _, Int x => returns (float_of_int x)
  end.
Proof.
  unfold returns.
  destruct a as [x | x], b as [y | y]; cbn [add].
  - split; [easy | now exists (Int (x + y))].
  - destruct (float_of_int x) as [fx | e]; cbn [bind]; split.
    + intros _. now exists fx.
    + intros _. now eexists.
    + intros [n Hn]. discriminate.
    + intros [n Hn]. discriminate.
  - destruct (float_of_int y) as [fy | e]; cbn [bind]; split.
    + intros _. now exists fy.
    + intros _. now eexists.
    + intros [n Hn]. discriminate.
    + intros [n Hn]. discriminate.
  - split; [easy | now eexists].
Qed.

(** The function returns a label as soon as the sum can be formed or is not
    needed. *)
Lemma which_set_label (d : Z) (v t : number) :
  returns (t + v)%py \/ (Int (d mod 100) <? v)%py = true ->
  exists r, which_set d v t = Ok r /\ label r.
Proof.
  unfold label. intros [[bound Hsum] | Hvalid].
  - rewrite (which_set_cases d v t bound Hsum).
    destruct (Int (d mod 100) <? v)%py; [eauto | ].
    destruct (Int (d mod 100) <? bound)%py; eauto.
  - rewrite (which_set_valid d v t Hvalid). eauto.
Qed.

(** ** Comparisons against the small floats callers write *)

Lemma ltb_Int_zero (b : Z) (s : bool) :
  (Int b <? Float (S754_zero s))%py = (b <? 0).
Proof.
  unfold ltb, compare, compare_int_float, Z.ltb. now destruct (b ?= 0).
Qed.

Lemma ltb_Int_dyadic (b z k : Z) (m : positive) :
  0 < k -> Z.pos m = z * 2 ^ k ->
  (Int b <? Float (S754_finite false m (- k)))%py = (b <? z).
Proof.
  intros Hk Hm. unfold ltb, compare, compare_int_float.
  destruct (Z.leb_spec 0 (- k)) as [H | _]; [lia | ].
  rewrite Z.opp_involutive. cbn [cond_Zopp]. rewrite Hm.
  assert (0 < 2 ^ k) by (apply Z.pow_pos_nonneg; lia).
  destruct (Z.compare_spec (b * 2 ^ k) (z * 2 ^ k));
    destruct (Z.ltb_spec b z); auto; nia.
Qed.

Lemma ltb_Int_as_float_0 (b : Z) : (Int b <? Float (as_float 0))%py = (b <? 0).
Proof. apply ltb_Int_zero. Qed.

Lemma ltb_Int_as_float_10 (b : Z) : (Int b <? Float (as_float 10))%py = (b <? 10).
Proof. apply (ltb_Int_dyadic b 10 49); [lia | reflexivity]. Qed.

Lemma ltb_Int_as_float_20 (b : Z) : (Int b <? Float (as_float 20))%py = (b <? 20).
Proof. apply (ltb_Int_dyadic b 20 48); [lia | reflexivity]. Qed.

Lemma ltb_Int_as_float_50 (b : Z) : (Int b <? Float (as_float 50))%py = (b <? 50).
Proof. apply (ltb_Int_dyadic b 50 47); [lia | reflexivity]. Qed.

Lemma ltb_Int_as_float_100 (b : Z) :
  (Int b <? Float (as_float 100))%py = (b <? 100).
Proof. apply (ltb_Int_dyadic b 100 46); [lia | reflexivity]. Qed.

Lemma ltb_Int_written (b z : Z) (x : number) :
  In z [0; 10; 20; 50; 100] -> written z x -> (Int b <? x)%py = (b <? z).
Proof.
  intros Hz [-> | ->]; [apply ltb_Int | ].
  cbn [In] in Hz.
  destruct Hz as [<- | [<- | [<- | [<- | [<- | []]]]]].
  - apply ltb_Int_as_float_0.
  - apply ltb_Int_as_float_10.
  - apply ltb_Int_as_float_20.
  - apply ltb_Int_as_float_50.
  - apply ltb_Int_as_float_100.
Qed.

(** Sums of equal small percentages, in whichever way they are written. *)
Lemma add_written (z : Z) (a b : number) :
  In z [0; 10; 50] -> written z a -> written z b ->
  exists s, (a + b)%py = Ok s /\ written (z + z) s.
Proof.
  cbn [In]. unfold written.
  intros [<- | [<- | [<- | []]]] [-> | ->] [-> | ->];
    eexists; (split; [vm_compute; reflexivity | ]); vm_compute; auto.
Qed.

(** With both percentages written as the same small number [z], the
    thresholds are [z] and [z + z]. *)
Lemma which_set_written (d z : Z) (v t : number) :
  In z [0; 10; 50] -> written z v -> written z t ->
  which_set d v t =
  Ok (if d mod 100 <? z then "valid"
      else if d mod 100 <? z + z then "test"
      else "train").
Proof.
  intros Hz Hv Ht.
  destruct (add_written z t v Hz Ht Hv) as [s [Hs Hw]].
  rewrite (which_set_cases d v t s Hs).
  rewrite (ltb_Int_written (d mod 100) z v), (ltb_Int_written (d mod 100) (z + z) s);
    try assumption; cbn [In] in *; intuition (subst; auto 6).
Qed.

(** ** Rounding in binary64 *)

(** Powers of two. *)

Lemma pow2_pos (k : Z) : 0 <= k -> 0 < 2 ^ k.
Proof. intros. apply Z.pow_pos_nonneg; lia. Qed.

Lemma pow2_split (a b : Z) : 0 <= b <= a -> 2 ^ a = 2 ^ (a - b) * 2 ^ b.
Proof. intros. rewrite <- Z.pow_add_r by lia. f_equal. lia. Qed.

Lemma pow2_le (a b : Z) : 0 <= a <= b -> 2 ^ a <= 2 ^ b.
Proof. intros. apply Z.pow_le_mono_r; lia. Qed.

Lemma compare_mul_pos_r (x y p : Z) : 0 < p -> (x * p ?= y * p) = (x ?= y).
Proof.
  intros Hp.
  destruct (Z.compare_spec x y); destruct (Z.compare_spec (x * p) (y * p));
    try reflexivity; nia.
Qed.

(** Digits, shifts and alignment, as [SpecFloat] computes them. *)

Lemma digits2_pos_bounds (m : positive) :
  2 ^ (Z.pos (digits2_pos m) - 1) <= Z.pos m < 2 ^ Z.pos (digits2_pos m).
Proof.
  induction m as [m IH | m IH | ]; cbn [digits2_pos].
  - rewrite Pos2Z.inj_succ.
    replace (Z.succ (Z.pos (digits2_pos m)) - 1) with (Z.succ (Z.pos (digits2_pos m) - 1)) by lia.
    rewrite !Z.pow_succ_r by lia. lia.
  - rewrite Pos2Z.inj_succ.
    replace (Z.succ (Z.pos (digits2_pos m)) - 1) with (Z.succ (Z.pos (digits2_pos m) - 1)) by lia.
    rewrite !Z.pow_succ_r by lia. lia.
  - cbn. lia.
Qed.

Lemma shr_m_shr_1 (mrs : shr_record) :
  0 <= shr_m mrs -> shr_m (shr_1 mrs) = shr_m mrs / 2.
Proof.
  destruct mrs as [m r s]. cbn [shr_m]. intros Hm. unfold shr_1.
  destruct m as [ | [p | p | ] | p]; cbn [shr_m]; try lia; try reflexivity.
  - apply (Z.div_unique_pos _ _ _ 1); lia.
  - apply (Z.div_unique_pos _ _ _ 0); lia.
Qed.

Lemma shr_1_nonneg (mrs : shr_record) : 0 <= shr_m mrs -> 0 <= shr_m (shr_1 mrs).
Proof.
  intros H. rewrite shr_m_shr_1 by assumption. apply Z.div_pos; lia.
Qed.

Lemma shr_m_iter (p : positive) (mrs : shr_record) :
  0 <= shr_m mrs ->
  shr_m (iter_pos shr_1 p mrs) = shr_m mrs / 2 ^ Z.pos p.
Proof.
  revert mrs. induction p as [p IH | p IH | ]; intros mrs Hm; cbn [iter_pos].
  - assert (H1 := shr_1_nonneg mrs Hm).
    assert (H2 : 0 <= shr_m (iter_pos shr_1 p (shr_1 mrs))).
    { rewrite IH by assumption. apply Z.div_pos; [assumption | ]. apply Z.pow_pos_nonneg; lia. }
    rewrite IH, IH, shr_m_shr_1 by assumption.
    assert (0 < 2 ^ Z.pos p) by (apply Z.pow_pos_nonneg; lia).
    rewrite !Z.div_div by lia. f_equal.
    rewrite (Pos2Z.inj_xI p). replace (2 * Z.pos p + 1) with (1 + Z.pos p + Z.pos p) by lia.
    rewrite Z.pow_add_r, Z.pow_add_r by lia. lia.
  - assert (H2 : 0 <= shr_m (iter_pos shr_1 p mrs)).
    { rewrite IH by assumption. apply Z.div_pos; [assumption | ]. apply Z.pow_pos_nonneg; lia. }
    rewrite IH, IH by assumption.
    assert (0 < 2 ^ Z.pos p) by (apply Z.pow_pos_nonneg; lia).
    rewrite !Z.div_div by lia. f_equal.
    rewrite (Pos2Z.inj_xO p). replace (2 * Z.pos p) with (Z.pos p + Z.pos p) by lia.
    rewrite Z.pow_add_r by lia. lia.
  - now rewrite shr_m_shr_1.
Qed.

Lemma shr_record_of_loc_m (m : Z) (l : location) : shr_m (shr_record_of_loc m l) = m.
Proof. now destruct l as [ | [ | | ]]. Qed.

Lemma emin_value : emin = -1074.
Proof. reflexivity. Qed.

Lemma fexp_value (d : Z) : fexp prec emax d = Z.max (d - 53) (-1074).
Proof. reflexivity. Qed.

(** Truncation to the exponent the format allows. *)
Lemma shr_fexp_spec (m e : Z) (l : location) :
  0 <= m ->
  let E := Z.max e (fexp prec emax (Zdigits2 m + e)) in
  snd (shr_fexp prec emax m e l) = E /\
  shr_m (fst (shr_fexp prec emax m e l)) = m / 2 ^ (E - e).
Proof.
  intros Hm E. unfold shr_fexp, shr.
  destruct (fexp prec emax (Zdigits2 m + e) - e) as [ | p | p] eqn:Hn; cbn [fst snd].
  - assert (E = e) by (unfold E; lia). rewrite shr_record_of_loc_m.
    replace (E - e) with 0 by lia. rewrite Z.div_1_r. auto.
  - assert (HE : E = e + Z.pos p) by (unfold E; lia). split; [lia | ].
    rewrite shr_m_iter by (now rewrite shr_record_of_loc_m).
    rewrite shr_record_of_loc_m. do 2 f_equal. lia.
  - assert (E = e) by (unfold E; lia). rewrite shr_record_of_loc_m.
    replace (E - e) with 0 by lia. rewrite Z.div_1_r. auto.
Qed.

Lemma round_nearest_even_ge (m : Z) (l : location) : m <= round_nearest_even m l.
Proof.
  unfold round_nearest_even. destruct l as [ | [ | | ]]; try lia.
  destruct (Z.even m); lia.
Qed.

Lemma iter_xO (m d : positive) : Z.pos (Pos.iter xO m d) = Z.pos m * 2 ^ Z.pos d.
Proof.
  induction d as [ | d IH] using Pos.peano_ind.
  - cbn. lia.
  - rewrite Pos.iter_succ, Pos2Z.inj_xO, IH, Pos2Z.inj_succ, Z.pow_succ_r by lia.
    lia.
Qed.

(** Aligning a mantissa on a smaller exponent keeps the value. *)
Lemma shl_align_spec (m : positive) (e e' : Z) :
  snd (shl_align m e e') = Z.min e e' /\
  Z.pos (fst (shl_align m e e')) = Z.pos m * 2 ^ (e - Z.min e e').
Proof.
  unfold shl_align. destruct (e' - e) as [ | d | d] eqn:Hd; cbn [fst snd].
  - replace (Z.min e e') with e by lia. rewrite Z.sub_diag. lia.
  - replace (Z.min e e') with e by lia. rewrite Z.sub_diag. lia.
  - replace (Z.min e e') with e' by lia. split; [reflexivity | ].
    rewrite iter_xO. do 2 f_equal. lia.
Qed.

(** Values counted in units of [2^emin]. *)

Lemma units_pos (m e : Z) : 0 < m -> emin <= e -> 0 < units m e.
Proof.
  intros Hm He. unfold units. apply Z.mul_pos_pos; [assumption | ].
  apply pow2_pos. lia.
Qed.

Lemma units_mono (m m' e : Z) : emin <= e -> m <= m' -> units m e <= units m' e.
Proof.
  intros He Hm. unfold units. apply Z.mul_le_mono_nonneg_r; [ | assumption].
  apply Z.lt_le_incl, pow2_pos. lia.
Qed.

Lemma units_shl_align (m : positive) (e e' : Z) :
  emin <= e -> emin <= e' ->
  units (Z.pos (fst (shl_align m e e'))) (snd (shl_align m e e')) = units (Z.pos m) e.
Proof.
  intros He He'. destruct (shl_align_spec m e e') as [-> ->]. unfold units.
  rewrite <- Z.mul_assoc, <- Z.pow_add_r by lia. do 2 f_equal. lia.
Qed.

Lemma valid_binary_finite (s : bool) (m : positive) (e : Z) :
  valid_binary prec emax (S754_finite s m e) = true ->
  emin <= e /\ Z.pos m < 2 ^ 53.
Proof.
  cbn [valid_binary]. unfold bounded, canonical_mantissa.
  intros H. apply andb_prop in H as [Hc _]. apply Z.eqb_eq in Hc.
  rewrite fexp_value in Hc. rewrite emin_value.
  pose proof (digits2_pos_bounds m) as [_ Hhi].
  split; [lia | ].
  apply Z.lt_le_trans with (1 := Hhi). apply pow2_le. lia.
Qed.

Lemma compare_int_float_units (b : Z) (s : bool) (m : positive) (e : Z) :
  emin <= e ->
  compare_int_float b (S754_finite s m e)
  = Some (units b 0 ?= units (cond_Zopp s (Z.pos m)) e).
Proof.
  intros He. cbn [compare_int_float]. f_equal. unfold units.
  rewrite emin_value in *.
  destruct (Z.leb_spec 0 e).
  - rewrite (pow2_split (e - -1074) (0 - -1074)) by lia.
    replace (e - -1074 - (0 - -1074)) with e by lia.
    rewrite Z.mul_assoc.
    symmetry. apply compare_mul_pos_r, pow2_pos. lia.
  - rewrite (pow2_split (0 - -1074) (e - -1074)) by lia.
    replace (0 - -1074 - (e - -1074)) with (- e) by lia.
    rewrite Z.mul_assoc.
    symmetry. apply compare_mul_pos_r, pow2_pos. lia.
Qed.

Lemma ltb_Int_at_least (b n c : Z) (f : spec_float) :
  units b 0 < units n c -> at_least n c f -> (Int b <? Float f)%py = true.
Proof.
  intros Hb [-> | [m [e [-> [He Hle]]]]]; [reflexivity | ].
  unfold ltb. cbn [compare]. rewrite compare_int_float_units by assumption.
  cbn [cond_Zopp].
  destruct (Z.compare_spec (units b 0) (units (Z.pos m) e)); try reflexivity; lia.
Qed.

(** Rounding to nearest never takes a positive value below a representable
    number [n * 2^c] that it was not below before. *)
Section LowerBound.

Variables n c : Z.
Hypothesis Hn : 0 < n < 2 ^ 53.
Hypothesis Hc : emin <= c.

(** Truncating to the exponent of the format keeps a value above every
    representable lower bound. *)
Lemma truncate_above (m e : Z) :
  0 < m -> emin <= e ->
  units n c <= units m e ->
  let E := Z.max e (fexp prec emax (Zdigits2 m + e)) in
  units n c <= units (m / 2 ^ (E - e)) E.
Proof.
  intros Hm He Hle E. pose proof Hc as Hc'.
  unfold units in *. rewrite emin_value in Hle, He, Hc' |- *.
  destruct (Z.eq_dec E e) as [HEe | HEe].
  { rewrite HEe, Z.sub_diag, Z.div_1_r. exact Hle. }
  assert (HE : e < E) by (unfold E in *; lia).
  assert (HEf : E = fexp prec emax (Zdigits2 m + e)) by (unfold E in *; lia).
  rewrite fexp_value in HEf.
  assert (Hpe := pow2_pos (e - -1074) ltac:(lia)).
  assert (HpE := pow2_pos (E - e) ltac:(lia)).
  destruct (Z_le_gt_dec E c) as [HcE | HcE].
  - (* the bound is a multiple of the new unit *)
    rewrite (pow2_split (c - -1074) (E - -1074)) by lia.
    rewrite Z.mul_assoc.
    apply Z.mul_le_mono_nonneg_r; [apply Z.lt_le_incl, pow2_pos; lia | ].
    apply Z.div_le_lower_bound; [assumption | ].
    rewrite (pow2_split (c - -1074) (e - -1074)) in Hle by lia.
    replace (c - -1074 - (E - -1074)) with (c - E) by lia.
    replace (c - -1074 - (e - -1074)) with (c - e) in Hle by lia.
    rewrite (pow2_split (c - e) (E - e)) in Hle by lia.
    replace (c - e - (E - e)) with (c - E) in Hle by lia.
    assert (Hx := pow2_pos (c - E) ltac:(lia)). nia.
  - (* the value has more digits than the bound *)
    destruct m as [ | pm | pm]; try lia. cbn [Zdigits2] in HEf.
    pose proof (digits2_pos_bounds pm) as [Hlo _].
    set (d := Z.pos (digits2_pos pm)) in *.
    assert (Hd : E = d + e - 53) by lia.
    assert (H1 : n * 2 ^ (c - -1074) < 2 ^ (d + e - 1 - -1074)).
    { apply Z.lt_le_trans with (2 ^ 53 * 2 ^ (c - -1074)).
      - apply Z.mul_lt_mono_pos_r; [apply pow2_pos; lia | lia].
      - rewrite <- Z.pow_add_r by lia. apply pow2_le. lia. }
    assert (H2 : 2 ^ 52 <= Z.pos pm / 2 ^ (E - e)).
    { apply Z.div_le_lower_bound; [assumption | ].
      rewrite <- Z.pow_add_r by lia. replace (E - e + 52) with (d - 1) by lia.
      exact Hlo. }
    apply Z.lt_le_incl, Z.lt_le_trans with (1 := H1).
    rewrite (pow2_split (d + e - 1 - -1074) (E - -1074)) by lia.
    replace (d + e - 1 - -1074 - (E - -1074)) with 52 by lia.
    apply Z.mul_le_mono_nonneg_r; [apply Z.lt_le_incl, pow2_pos; lia | exact H2].
Qed.

Lemma binary_round_aux_at_least (m e : Z) (l : location) :
  0 < m -> emin <= e ->
  units n c <= units m e ->
  at_least n c (binary_round_aux prec emax false m e l).
Proof.
  intros Hm He Hle. unfold binary_round_aux.
  pose proof (units_pos n c (proj1 Hn) Hc) as Hx.
  (* first truncation *)
  pose proof (shr_fexp_spec m e l (Z.lt_le_incl _ _ Hm)) as [He1 Hm1].
  pose proof (truncate_above m e Hm He Hle) as Hle1.
  cbv zeta in He1, Hm1, Hle1.
  destruct (shr_fexp prec emax m e l) as [mrs1 e1]. cbn [fst snd] in He1, Hm1.
  rewrite <- He1 in Hm1, Hle1. rewrite <- Hm1 in Hle1.
  assert (He1' : emin <= e1) by lia.
  set (m2 := round_nearest_even (shr_m mrs1) (loc_of_shr_record mrs1)).
  assert (Hm12 : shr_m mrs1 <= m2) by apply round_nearest_even_ge.
  assert (Hle2 : units n c <= units m2 e1).
  { eapply Z.le_trans; [exact Hle1 | now apply units_mono]. }
  assert (Hm2 : 0 < m2).
  { destruct (Z_lt_le_dec 0 m2) as [ | Hneg]; [assumption | exfalso].
    assert (units m2 e1 <= 0).
    { unfold units. apply Z.mul_nonpos_nonneg; [assumption | ].
      apply Z.lt_le_incl, pow2_pos. lia. }
    lia. }
  (* second truncation, after rounding *)
  pose proof (shr_fexp_spec m2 e1 loc_Exact (Z.lt_le_incl _ _ Hm2)) as [He3 Hm3].
  pose proof (truncate_above m2 e1 Hm2 He1' Hle2) as Hle3.
  cbv zeta in He3, Hm3, Hle3.
  destruct (shr_fexp prec emax m2 e1 loc_Exact) as [mrs3 e3].
  cbn [fst snd] in He3, Hm3.
  rewrite <- He3 in Hm3, Hle3. rewrite <- Hm3 in Hle3.
  assert (He3' : emin <= e3) by lia.
  destruct (shr_m mrs3) as [ | m3 | m3] eqn:Hm3'.
  - unfold units in Hle3. lia.
  - destruct (e3 <=? emax - prec); [right | now left].
    exists m3, e3. auto.
  - assert (units (Z.neg m3) e3 <= 0).
    { unfold units. apply Z.mul_nonpos_nonneg; [lia | ].
      apply Z.lt_le_incl, pow2_pos. lia. }
    lia.
Qed.

Lemma binary_round_at_least (m : positive) (e : Z) :
  emin <= e ->
  units n c <= units (Z.pos m) e ->
  at_least n c (binary_round prec emax false m e).
Proof.
  intros He Hle. unfold binary_round.
  set (e' := fexp prec emax (Z.pos (digits2_pos m) + e)).
  assert (He' : emin <= e') by (unfold e'; rewrite fexp_value, emin_value; lia).
  pose proof (units_shl_align m e e' He He') as Hu.
  pose proof (shl_align_spec m e e') as [Hs _].
  destruct (shl_align m e e') as [mz ez]. cbn [fst snd] in Hu, Hs.
  apply binary_round_aux_at_least; try assumption; try lia.
Qed.

(** Adding a non-negative float never goes below a representable lower
    bound of the other operand. *)
Lemma SFadd_at_least (t g : spec_float) :
  nonneg_float t -> at_least n c g ->
  at_least n c (SFadd prec emax t g).
Proof.
  intros Ht [-> | [m [e [-> [He Hle]]]]].
  - destruct t as [s | s | | s mt et]; cbn [nonneg_float] in Ht.
    + now left.
    + subst s. now left.
    + contradiction.
    + now left.
  - destruct t as [s | s | | s mt et]; cbn [nonneg_float] in Ht.
    + right. exists m, e. auto.
    + subst s. now left.
    + contradiction.
    + destruct Ht as [-> Het]. cbn [SFadd cond_Zopp].
      pose proof (shl_align_spec mt et (Z.min et e)) as [_ Ht].
      pose proof (units_shl_align m e (Z.min et e) He ltac:(lia)) as Hu.
      pose proof (shl_align_spec m e (Z.min et e)) as [Hs _].
      rewrite Hs in Hu. replace (Z.min e (Z.min et e)) with (Z.min et e) in Hu by lia.
      cbn [Z.add binary_normalize].
      apply binary_round_at_least; try assumption; try lia.
      rewrite <- Hu in Hle. eapply Z.le_trans; [exact Hle | ].
      apply units_mono; lia.
Qed.

End LowerBound.

(** Converting and comparing. *)

(** What [0 <= t] says of a binary64 [t]. *)
Lemma leb_zero_nonneg (f : spec_float) :
  valid_binary prec emax f = true ->
  (Int 0 <=? Float f)%py = true -> nonneg_float f.
Proof.
  intros Hv. unfold leb. cbn [compare].
  destruct f as [s | s | | s m e]; cbn [nonneg_float].
  - auto.
  - cbn [compare_int_float]. now destruct s.
  - discriminate.
  - destruct (valid_binary_finite s m e Hv) as [He _].
    rewrite compare_int_float_units by assumption.
    destruct s; auto. cbn [cond_Zopp]. intros H. exfalso.
    assert (0 < 2 ^ (e - emin)) by (apply pow2_pos; lia).
    destruct (Z.compare_spec (units 0 0) (units (- Z.pos m) e));
      try discriminate; unfold units in *; nia.
Qed.

(** What [b < v] says of a binary64 [v] when [b] is a bucket. *)
Lemma ltb_Int_float_at_least (b : Z) (f : spec_float) :
  0 <= b <= 99 -> valid_binary prec emax f = true ->
  (Int b <? Float f)%py = true ->
  exists n c, 0 < n < 2 ^ 53 /\ emin <= c /\ units b 0 < units n c /\
              at_least n c f.
Proof.
  intros Hb Hv. unfold ltb. cbn [compare].
  assert (Hsucc : units b 0 < units (b + 1) 0).
  { unfold units. apply Z.mul_lt_mono_pos_r; [apply pow2_pos; rewrite emin_value | ]; lia. }
  destruct f as [s | s | | s m e].
  - cbn [compare_int_float]. destruct (Z.compare_spec b 0); try discriminate; lia.
  - cbn [compare_int_float]. destruct s; [discriminate | ]. intros _.
    exists (b + 1), 0. rewrite emin_value. repeat split; try lia.
    now left.
  - discriminate.
  - destruct (valid_binary_finite s m e Hv) as [He Hm].
    rewrite compare_int_float_units by assumption.
    destruct (Z.compare_spec (units b 0) (units (cond_Zopp s (Z.pos m)) e)) as [ | Hlt | ];
      try discriminate.
    intros _. destruct s; cbn [cond_Zopp] in Hlt.
    + exfalso. unfold units in Hlt.
      assert (0 < 2 ^ (e - emin)) by (apply pow2_pos; lia).
      assert (0 < 2 ^ (0 - emin)) by (apply pow2_pos; rewrite emin_value; lia).
      nia.
    + exists (Z.pos m), e. repeat split; try lia.
      right. exists m, e. repeat split; try lia.
Qed.

Lemma SFadd_comm (x y : spec_float) : SFadd prec emax x y = SFadd prec emax y x.
Proof.
  destruct x as [sx | sx | | sx mx ex], y as [sy | sy | | sy my ey];
    try reflexivity; try (now destruct sx, sy).
  cbn [SFadd]. rewrite (Z.min_comm ex ey). f_equal. apply Z.add_comm.
Qed.

Lemma add_comm (a b : number) : (a + b)%py = (b + a)%py.
Proof.
  destruct a as [x | x], b as [y | y]; cbn [add].
  - now rewrite Z.add_comm.
  - destruct (float_of_int x); cbn [bind]; [now rewrite SFadd_comm | reflexivity].
  - destruct (float_of_int y); cbn [bind]; [now rewrite SFadd_comm | reflexivity].
  - now rewrite SFadd_comm.
Qed.

Lemma float_of_int_at_least (n z : Z) (f : spec_float) :
  0 < n < 2 ^ 53 -> n <= z -> float_of_int z = Ok f -> at_least n 0 f.
Proof.
  intros Hn Hz. unfold float_of_int.
  destruct z as [ | p | p]; try lia. cbn [binary_normalize].
  assert (H : at_least n 0 (binary_round prec emax false p 0)).
  { apply binary_round_at_least; try assumption; try (rewrite emin_value; lia).
    apply units_mono; [rewrite emin_value | ]; lia. }
  destruct (binary_round prec emax false p 0); intros [= <-]; exact H.
Qed.

Lemma float_of_int_nonneg (z : Z) (f : spec_float) :
  0 <= z -> float_of_int z = Ok f -> nonneg_float f.
Proof.
  intros Hz Hf. destruct (Z.eq_dec z 0) as [-> | Hnz].
  - cbv in Hf. injection Hf as <-. exact I.
  - destruct (float_of_int_at_least 1 z f ltac:(lia) ltac:(lia) Hf)
      as [-> | [m [e [-> [He _]]]]]; cbn [nonneg_float]; auto.
Qed.

(** A bucket below the validation percentage is below the sum of the
    percentages as the interpreter computes it, when the testing percentage
    is not negative. *)
Lemma below_validation_below_sum (b : Z) (v t bound : number) :
  0 <= b <= 99 -> binary64 v -> binary64 t ->
  (Int 0 <=? t)%py = true ->
  (t + v)%py = Ok bound ->
  (Int b <? v)%py = true -> (Int b <? bound)%py = true.
Proof.
  intros Hb Hv Ht Ht0 Hsum Hbv.
  assert (Hsucc : units b 0 < units (b + 1) 0).
  { unfold units. apply Z.mul_lt_mono_pos_r; [apply pow2_pos; rewrite emin_value | ]; lia. }
  destruct v as [zv | fv], t as [zt | ft]; cbn [add binary64] in *.
  - injection Hsum as <-. rewrite ltb_Int in *. rewrite leb_Int in Ht0.
    apply Z.leb_le in Ht0. apply Z.ltb_lt in Hbv. apply Z.ltb_lt. lia.
  - destruct (float_of_int zv) as [fz | ] eqn:Hfz; [ | discriminate].
    cbn [bind] in Hsum. injection Hsum as <-.
    rewrite ltb_Int in Hbv. apply Z.ltb_lt in Hbv.
    apply (ltb_Int_at_least b (b + 1) 0); [assumption | ].
    apply SFadd_at_least; try (rewrite ?emin_value; lia).
    + now apply leb_zero_nonneg.
    + apply (float_of_int_at_least (b + 1) zv); [lia | lia | assumption].
  - destruct (float_of_int zt) as [fz | ] eqn:Hfz; [ | discriminate].
    cbn [bind] in Hsum. injection Hsum as <-.
    rewrite leb_Int in Ht0. apply Z.leb_le in Ht0.
    destruct (ltb_Int_float_at_least b fv Hb Hv Hbv) as [n [c [Hn [Hc [Hlt Hge]]]]].
    apply (ltb_Int_at_least b n c); [assumption | ].
    apply SFadd_at_least; try assumption.
    now apply (float_of_int_nonneg zt).
  - injection Hsum as <-.
    destruct (ltb_Int_float_at_least b fv Hb Hv Hbv) as [n [c [Hn [Hc [Hlt Hge]]]]].
    apply (ltb_Int_at_least b n c); [assumption | ].
    apply SFadd_at_least; try assumption.
    now apply leb_zero_nonneg.
Qed.

(** ** The split decision *)

(** On [int] percentages the intervals read in plain integer arithmetic. *)
Lemma which_set_half_open_int (digest v t : Z) :
  0 <= v -> 0 <= t -> v + t <= 100 ->
  let bucket := digest mod 100 in
  0 <= bucket <= 99 /\
  (0 <= bucket < v -> which_set digest v t = Ok "valid") /\
  (v <= bucket < v + t -> which_set digest v t = Ok "test") /\
  (v + t <= bucket < 100 -> which_set digest v t = Ok "train") /\
  (bucket = v -> which_set digest v t <> Ok "valid") /\
  (bucket = v + t -> which_set digest v t <> Ok "test").
Proof.
  intros Hv Ht Hsum bucket. rewrite which_set_Int. fold bucket.
  split; [apply bucket_range | ].
  destruct (Z.ltb_spec bucket v) as [Hlt | Hge].
  - repeat split; intros; try reflexivity; try discriminate; lia.
  - destruct (Z.ltb_spec bucket (t + v)) as [Hlt' | Hge'].
    + repeat split; intros; try reflexivity; try discriminate; lia.
    + repeat split; intros; try reflexivity; try discriminate; lia.
Qed.

(** C1.  For every integer digest and percentages [v], [t] ([int]s or
    binary64 [float]s) with [0 <= v], [0 <= t] and [v + t <= 100], [which_set]
    follows half-open intervals on [bucket = digest mod 100]: a bucket in
    [[0, v)] gives "valid", one in [[v, v + t)] gives "test", one in
    [[v + t, 100)] gives "train"; a bucket equal to [v] is not "valid" and a
    bucket equal to [v + t] is not "test".  The comparisons and the sum are
    the interpreter's. *)
Theorem which_set_half_open (digest : Z) (v t sum : number) :
  binary64 v -> binary64 t ->
  (Int 0 <=? v)%py = true -> (Int 0 <=? t)%py = true ->
  (v + t)%py = Ok sum -> (sum <=? Int 100)%py = true ->
  let bucket := digest mod 100 in
  0 <= bucket <= 99 /\
  ((Int bucket <? v)%py = true -> which_set digest v t = Ok "valid") /\
  ((v <=? Int bucket)%py = true -> (Int bucket <? sum)%py = true ->
   which_set digest v t = Ok "test") /\
  ((sum <=? Int bucket)%py = true -> which_set digest v t = Ok "train") /\
  ((Int bucket =? v)%py = true -> which_set digest v t <> Ok "valid") /\
  ((Int bucket =? sum)%py = true -> which_set digest v t <> Ok "test").
Proof.
  intros Hv Ht _ Ht0 Hsum _ bucket.
  pose proof (bucket_range digest) as Hb. fold bucket in Hb.
  rewrite add_comm in Hsum.
  rewrite (which_set_cases digest v t sum Hsum). fold bucket.
  split; [assumption | ].
  split; [now intros -> | ].
  split.
  { intros Hvb Hbs. apply leb_Int_r_not_ltb in Hvb. now rewrite Hvb, Hbs. }
  split.
  { intros Hsb. apply leb_Int_r_not_ltb in Hsb.
    destruct (Int bucket <? v)%py eqn:Hbv.
    - rewrite (below_validation_below_sum bucket v t sum Hb Hv Ht Ht0 Hsum Hbv) in Hsb.
      discriminate.
    - now rewrite Hsb. }
  split.
  { intros Heq. apply eqb_Int_l_not_ltb in Heq. rewrite Heq.
    destruct (Int bucket <? sum)%py; discriminate. }
  intros Heq. apply eqb_Int_l_not_ltb in Heq. rewrite Heq.
  destruct (Int bucket <? v)%py; discriminate.
Qed.

Lemma which_set_half_open_witness :
  let v := Int 10 in
  let t := Float (S754_finite false 4996180836614144 (-47)) in
  let sum := Float (S754_finite false 6403555720167424 (-47)) in
  let bucket := 12345 mod 100 in
  0 <= bucket <= 99 /\
  ((Int bucket <? v)%py = true -> which_set 12345 v t = Ok "valid") /\
  ((v <=? Int bucket)%py = true -> (Int bucket <? sum)%py = true ->
   which_set 12345 v t = Ok "test") /\
  ((sum <=? Int bucket)%py = true -> which_set 12345 v t = Ok "train") /\
  ((Int bucket =? v)%py = true -> which_set 12345 v t <> Ok "valid") /\
  ((Int bucket =? sum)%py = true -> which_set 12345 v t <> Ok "test").
Proof.
  apply (which_set_half_open 12345 (Int 10)
           (Float (S754_finite false 4996180836614144 (-47)))
           (Float (S754_finite false 6403555720167424 (-47))));
    reflexivity.
Defined.

(** C2, as the code has it.  For every integer digest and every pair of
    non-negative percentages, also when their sum exceeds 100, [which_set]
    returns, and returns one of "train", "valid", "test", provided the sum
    [testing_percentage + validation_percentage] can be formed (two [int]s,
    two [float]s, or an [int] that converts to a [float] together with a
    [float]) or is not needed (the bucket is below the validation
    percentage). *)
Theorem which_set_returns_label (digest : Z) (v t : number) :
  (Int 0 <=? v)%py = true -> (Int 0 <=? t)%py = true ->
  returns (t + v)%py \/ (Int (digest mod 100) <? v)%py = true ->
  exists r, which_set digest v t = Ok r /\ label r.
Proof. intros _ _. apply which_set_label. Qed.

Lemma which_set_returns_label_witness :
  exists r, which_set 12345 (Int 70) (Float (as_float 60)) = Ok r /\ label r.
Proof.
  apply (which_set_returns_label 12345 (Int 70) (Float (as_float 60)));
    [reflexivity | reflexivity | ].
  left. exists (Float (as_float 130)). reflexivity.
Defined.

(** C2 fails as stated: with the non-negative percentages [1.0] (a [float])
    and [2 ** 1024] (an [int]) and bucket 50, the sum of the percentages
    raises [OverflowError]. *)
Lemma which_set_nonneg_raises :
  (Int 0 <=? Float (as_float 1))%py = true /\
  (Int 0 <=? Int (2 ^ 1024))%py = true /\
  which_set 50 (Float (as_float 1)) (Int (2 ^ 1024)) = Raise OverflowError.
Proof. repeat split; vm_compute; reflexivity. Qed.

(** C4.  With both percentages 0 (written [0] or [0.0]), every integer
    digest is assigned to "train". *)
Theorem which_set_zero_zero (digest : Z) (v t : number) :
  written 0 v -> written 0 t -> which_set digest v t = Ok "train".
Proof.
  intros Hv Ht.
  rewrite (which_set_written digest 0 v t) by (cbn; auto).
  pose proof (bucket_range digest).
  destruct (Z.ltb_spec (digest mod 100) 0); [lia | ].
  destruct (Z.ltb_spec (digest mod 100) (0 + 0)); [lia | reflexivity].
Qed.

Lemma which_set_zero_zero_witness : which_set 12345 0 0 = Ok "train".
Proof.
  apply (which_set_zero_zero 12345 (Int 0) (Int 0)); left; reflexivity.
Defined.

(** C5.  With both percentages 50 (written [50] or [50.0]), no integer
    digest is assigned to "train": buckets below 50 are "valid", buckets
    from 50 to 99 are "test". *)
Theorem which_set_fifty_fifty (digest : Z) (v t : number) :
  written 50 v -> written 50 t ->
  which_set digest v t <> Ok "train" /\
  (digest mod 100 < 50 -> which_set digest v t = Ok "valid") /\
  (50 <= digest mod 100 < 100 -> which_set digest v t = Ok "test").
Proof.
  intros Hv Ht.
  rewrite (which_set_written digest 50 v t) by (cbn; auto).
  pose proof (bucket_range digest).
  destruct (Z.ltb_spec (digest mod 100) 50);
    destruct (Z.ltb_spec (digest mod 100) (50 + 50));
    repeat split; intros; try reflexivity; try discriminate; lia.
Qed.

Lemma which_set_fifty_fifty_witness :
  which_set 12345 50 (Float (as_float 50)) <> Ok "train" /\
  (12345 mod 100 < 50 ->
   which_set 12345 50 (Float (as_float 50)) = Ok "valid") /\
  (50 <= 12345 mod 100 < 100 ->
   which_set 12345 50 (Float (as_float 50)) = Ok "test").
Proof.
  apply (which_set_fifty_fifty 12345 (Int 50) (Float (as_float 50)));
    [left | right]; reflexivity.
Defined.

(** C7.  With both percentages 10 (written [10] or [10.0]): a digest with
    [digest mod 100 = 45] is "train", one with [digest mod 100 = 5] is
    "valid", one with [digest mod 100 = 15] is "test". *)
Theorem which_set_ten_ten (digest : Z) (v t : number) :
  written 10 v -> written 10 t ->
  (digest mod 100 = 45 -> which_set digest v t = Ok "train") /\
  (digest mod 100 = 5 -> which_set digest v t = Ok "valid") /\
  (digest mod 100 = 15 -> which_set digest v t = Ok "test").
Proof.
  intros Hv Ht.
  rewrite (which_set_written digest 10 v t) by (cbn; auto).
  repeat split; intros ->; reflexivity.
Qed.

Lemma which_set_ten_ten_witness :
  (12345 mod 100 = 45 -> which_set 12345 10 10 = Ok "train") /\
  (12345 mod 100 = 5 -> which_set 12345 10 10 = Ok "valid") /\
  (12345 mod 100 = 15 -> which_set 12345 10 10 = Ok "test").
Proof.
  apply (which_set_ten_ten 12345 (Int 10) (Int 10)); left; reflexivity.
Defined.

(** C8.  When [digest mod 100 < v], [which_set] returns "valid" whatever
    the testing percentage is: two calls that differ only in the testing
    percentage agree, and both give "valid". *)
Theorem which_set_valid_ignores_testing (digest : Z) (v t1 t2 : number) :
  (Int (digest mod 100) <? v)%py = true ->
  which_set digest v t1 = Ok "valid" /\
  which_set digest v t2 = Ok "valid" /\
  which_set digest v t1 = which_set digest v t2.
Proof.
  intros H.
  rewrite (which_set_valid digest v t1 H), (which_set_valid digest v t2 H).
  auto.
Qed.

Lemma which_set_valid_ignores_testing_witness :
  which_set 12305 10 (Int 3) = Ok "valid" /\
  which_set 12305 10 (Int (2 ^ 1024)) = Ok "valid" /\
  which_set 12305 10 (Int 3) = which_set 12305 10 (Int (2 ^ 1024)).
Proof.
  apply (which_set_valid_ignores_testing 12305 (Int 10)). reflexivity.
Defined.

(** C9, as the code has it.  For every integer digest, negative ones
    included, and every pair of percentages of any sign: the bucket lies in
    [[0, 99]]; a negative validation percentage makes "valid" unreachable;
    and [which_set] returns one of "train", "valid", "test" whenever the sum
    of the two percentages can be formed (two [int]s, two [float]s, or an
    [int] that converts to a [float] together with a [float]) or is not
    needed (the bucket is below the validation percentage). *)
Theorem which_set_total_any_sign (digest : Z) (v t : number) :
  0 <= digest mod 100 <= 99 /\
  ((v <? Int 0)%py = true -> which_set digest v t <> Ok "valid") /\
  (returns (t + v)%py \/ (Int (digest mod 100) <? v)%py = true ->
   exists r, which_set digest v t = Ok r /\ label r).
Proof.
  split; [apply bucket_range | ].
  split; [ | apply which_set_label].
  intros Hneg.
  assert (Hb : (Int (digest mod 100) <? v)%py = false).
  { pose proof (bucket_range digest) as Hr.
    unfold ltb in *. destruct v as [z | f]; cbn [compare] in *.
    - destruct (Z.compare_spec z 0); try discriminate.
      destruct (Z.compare_spec (digest mod 100) z); auto; lia.
    - destruct (compare_int_float 0 f) as [[ | | ] | ] eqn:H0; try discriminate.
      now rewrite (compare_int_float_mono 0 (digest mod 100) f (proj1 Hr) H0). }
  unfold which_set. rewrite Hb.
  destruct (t + v)%py as [bound | e]; cbn [bind]; [ | discriminate].
  now destruct (Int (digest mod 100) <? bound)%py.
Qed.

Lemma which_set_total_any_sign_witness :
  which_set (-7) (Int (-5)) (Float (as_float (-3))) <> Ok "valid" /\
  exists r, which_set (-7) (Int (-5)) (Float (as_float (-3))) = Ok r /\ label r.
Proof.
  pose proof (which_set_total_any_sign (-7) (Int (-5)) (Float (as_float (-3))))
    as [_ [Hvalid Hlabel]].
  split.
  - apply Hvalid. reflexivity.
  - apply Hlabel. left. exists (Float (as_float (-8))). reflexivity.
Defined.

(** C9 fails as stated: with digest [-7] (bucket 93), validation percentage
    [-1.0] (a [float]) and testing percentage [-(2 ** 1024)] (an [int]),
    the sum of the percentages raises [OverflowError]. *)
Lemma which_set_any_sign_raises :
  which_set (-7) (Float (as_float (-1))) (Int (- 2 ^ 1024)) = Raise OverflowError.
Proof. vm_compute. reflexivity. Qed.

(** ** Encoding and hashing *)

Lemma Ok_inj {A : Type} (x y : A) : Ok x = Ok y -> x = y.
Proof. congruence. Qed.

Lemma encode_code_point_returns (c : Z) :
  surrogate c = false -> returns (encode_code_point c).
Proof.
  unfold encode_code_point, returns. intros ->.
  destruct (c <? 0x80); [eauto | ].
  destruct (c <? 0x800); [eauto | ].
  destruct (c <? 0x10000); eauto.
Qed.

Lemma encode_code_point_surrogate (c : Z) :
  surrogate c = true -> encode_code_point c = Raise UnicodeEncodeError.
Proof.
  unfold encode_code_point, surrogate. intros H.
  apply andb_prop in H as [Hlo Hhi].
  apply Z.leb_le in Hlo, Hhi.
  destruct (Z.ltb_spec c 0x80); [lia | ].
  destruct (Z.ltb_spec c 0x800); [lia | ].
  destruct (Z.ltb_spec c 0x10000); [ | lia].
  unfold surrogate.
  destruct (Z.leb_spec 0xD800 c); [ | lia].
  destruct (Z.leb_spec c 0xDFFF); [reflexivity | lia].
Qed.

(** One code point of each encoded length: U+0041, U+00E9, U+20AC and
    U+1F600. *)
Example encode_utf8_lengths :
  encode_utf8 [0x41; 0xE9; 0x20AC; 0x1F600]
  = Ok [0x41; 0xC3; 0xA9; 0xE2; 0x82; 0xAC; 0xF0; 0x9F; 0x98; 0x80].
Proof. reflexivity. Qed.

(** Encoding succeeds exactly on the strings without surrogates. *)
Lemma encode_utf8_returns_iff (s : str) :
  returns (encode_utf8 s) <-> no_surrogate s.
Proof.
  unfold no_surrogate. induction s as [ | c rest IH]; cbn [encode_utf8].
  - split; [constructor | intros _; now exists []].
  - split.
    + intros [bs Hbs]. destruct (surrogate c) eqn:Hc.
      * rewrite (encode_code_point_surrogate c Hc) in Hbs. discriminate.
      * constructor; [assumption | ]. apply IH.
        destruct (encode_code_point c); [ | discriminate]. cbn [bind] in Hbs.
        destruct (encode_utf8 rest) as [r | e]; [now exists r | discriminate].
    + intros H. inversion H as [ | c' rest' Hc Hrest]; subst.
      destruct (encode_code_point_returns c Hc) as [b ->].
      destruct (proj2 IH Hrest) as [r ->]. cbn [bind]. now eexists.
Qed.

(** From [Ok [o1; ...; on] = Ok b], one goal [0 <= oi < 256] per octet. *)
Ltac octets_of H :=
  apply Ok_inj in H; subst;
  repeat apply Forall_cons; try apply Forall_nil; unfold octet.

(** Octets of a well-formed string: the encoder produces bytes. *)
Lemma encode_code_point_octets (c : Z) (b : bytes) :
  code_point c -> encode_code_point c = Ok b -> Forall octet b.
Proof.
  unfold code_point, encode_code_point. intros Hc.
  assert (Hlow : forall x, 0 <= Z.land x 0x3F < 64).
  { intros x. change 0x3F with (Z.ones 6). rewrite Z.land_ones by lia.
    apply Z.mod_pos_bound. lia. }
  assert (Hor : forall hi x, 0 <= x < 64 -> In hi [0x80; 0xC0] ->
                             0 <= Z.lor hi x < 256).
  { intros hi x Hx Hhi. split.
    - apply Z.lor_nonneg. cbn [In] in Hhi. lia.
    - assert (Hbits : Z.lor hi x = Z.lor hi x mod 2 ^ 8).
      { symmetry. apply Z.mod_small. split.
        - apply Z.lor_nonneg. cbn [In] in Hhi. lia.
        - destruct (Z.eq_dec (Z.lor hi x) 0) as [-> | Hnz]; [lia | ].
          apply Z.log2_lt_pow2.
          + assert (0 <= Z.lor hi x) by (apply Z.lor_nonneg; cbn [In] in Hhi; lia). lia.
          + rewrite Z.log2_lor by (cbn [In] in Hhi; lia).
            assert (Z.log2 x < 6).
            { destruct (Z.eq_dec x 0) as [-> | ]; [cbn; lia | ].
              apply Z.log2_lt_pow2; lia. }
            cbn [In] in Hhi.
            destruct Hhi as [<- | [<- | []]]; cbn; lia. }
      rewrite Hbits. apply Z.mod_pos_bound. lia. }
  destruct (Z.ltb_spec c 0x80).
  { intros Heq; octets_of Heq; lia. }
  assert (Hshr : forall n, 0 <= n -> 0 <= Z.shiftr c n).
  { intros n Hn. apply Z.shiftr_nonneg. lia. }
  assert (Hhead : forall hi n k, 0 <= n -> c < 2 ^ (n + k) -> 0 <= k -> 0 <= hi ->
                    Z.log2 hi < 8 -> k < 8 -> 0 <= Z.lor hi (Z.shiftr c n) < 256).
  { intros hi n k Hn Hck Hk Hhi Hlog Hk8.
    assert (0 <= Z.shiftr c n < 2 ^ k).
    { rewrite Z.shiftr_div_pow2 by lia. split.
      - apply Z.div_pos; [lia | apply Z.pow_pos_nonneg; lia].
      - apply Z.div_lt_upper_bound; [apply Z.pow_pos_nonneg; lia | ].
        rewrite <- Z.pow_add_r by lia. lia. }
    split; [apply Z.lor_nonneg; lia | ].
    destruct (Z.eq_dec (Z.lor hi (Z.shiftr c n)) 0) as [-> | Hnz]; [lia | ].
    apply (Z.log2_lt_pow2 _ 8).
    - assert (0 <= Z.lor hi (Z.shiftr c n)) by (apply Z.lor_nonneg; lia). lia.
    - rewrite Z.log2_lor by lia.
      assert (Z.log2 (Z.shiftr c n) < 8).
      { destruct (Z.eq_dec (Z.shiftr c n) 0) as [-> | ]; [cbn; lia | ].
        apply Z.log2_lt_pow2; [lia | ].
        assert (2 ^ k <= 2 ^ 8) by (apply Z.pow_le_mono_r; lia). lia. }
      lia. }
  destruct (Z.ltb_spec c 0x800).
  { intros Heq; octets_of Heq.
    - apply (Hhead 0xC0 6 5); cbn; lia.
    - apply Hor; [apply Hlow | cbn; auto]. }
  destruct (Z.ltb_spec c 0x10000).
  { destruct (surrogate c); [discriminate | ]. intros Heq; apply Ok_inj in Heq; subst b.
    repeat apply Forall_cons; try apply Forall_nil; unfold octet.
    - apply (Hhead 0xE0 12 4); cbn; lia.
    - apply Hor; [apply Hlow | cbn; auto].
    - apply Hor; [apply Hlow | cbn; auto]. }
  intros Heq; octets_of Heq.
  - apply (Hhead 0xF0 18 3); cbn; lia.
  - apply Hor; [apply Hlow | cbn; auto].
  - apply Hor; [apply Hlow | cbn; auto].
  - apply Hor; [apply Hlow | cbn; auto].
Qed.

Lemma encode_utf8_octets (s : str) (b : bytes) :
  Forall code_point s -> encode_utf8 s = Ok b -> Forall octet b.
Proof.
  revert b. induction s as [ | c rest IH]; cbn [encode_utf8]; intros b Hs.
  - intros [= <-]. constructor.
  - inversion Hs as [ | c' rest' Hc Hrest]; subst.
    destruct (encode_code_point c) as [bc | ] eqn:Hbc; [ | discriminate].
    cbn [bind].
    destruct (encode_utf8 rest) as [br | ] eqn:Hbr; [ | discriminate].
    cbn [bind]. intros [= <-]. apply Forall_app. split.
    + now apply (encode_code_point_octets c).
    + now apply IH.
Qed.

(** The padded message is a whole number of 64-octet blocks, and cutting
    it into blocks loses nothing. *)
Lemma pad_length (msg : bytes) : Z.of_nat (List.length (SHA1.pad msg)) mod 64 = 0.
Proof.
  unfold SHA1.pad, SHA1.be64.
  rewrite !length_app, repeat_length. cbn [List.length map].
  pose proof (Z.mod_pos_bound (55 - Z.of_nat (List.length msg)) 64 ltac:(lia)).
  rewrite !Nat2Z.inj_add, Z2Nat.id by lia. cbn [Z.of_nat Pos.of_succ_nat Pos.succ].
  pose proof (Z.div_mod (55 - Z.of_nat (List.length msg)) 64 ltac:(lia)) as Hdm.
  set (k := (55 - Z.of_nat (List.length msg)) mod 64) in *.
  set (q := (55 - Z.of_nat (List.length msg)) / 64) in *.
  replace (Z.of_nat (List.length msg) + (1 + (k + 8))) with ((- q + 1) * 64) by lia.
  apply Z.mod_mul. lia.
Qed.

Lemma blocks_concat (fuel : nat) (m : bytes) :
  (List.length m <= fuel)%nat -> List.concat (SHA1.blocks fuel m) = m.
Proof.
  revert m. induction fuel as [ | fuel IH]; intros m Hlen.
  - destruct m; [reflexivity | cbn [List.length] in Hlen; lia].
  - destruct m as [ | c rest]; [reflexivity | ].
    cbn [SHA1.blocks List.concat]. rewrite IH.
    + apply firstn_skipn.
    + rewrite length_skipn. cbn [List.length] in *. lia.
Qed.

(** The digest is twenty octets, whatever was hashed. *)
Lemma be32_octets (x : Z) : Forall octet (SHA1.be32 x).
Proof.
  unfold SHA1.be32. cbn [map].
  repeat apply Forall_cons; try apply Forall_nil;
    unfold octet; apply Z.mod_pos_bound; lia.
Qed.

Lemma digest_length (msg : bytes) : List.length (SHA1.digest msg) = 20%nat.
Proof. unfold SHA1.digest. now destruct (SHA1.hash msg). Qed.

Lemma digest_octets (msg : bytes) : Forall octet (SHA1.digest msg).
Proof.
  unfold SHA1.digest. destruct (SHA1.hash msg) as [a b c d e].
  repeat (apply Forall_app; split); apply be32_octets.
Qed.

(** Reading back the two digits written for an octet. *)
Lemma hex_value_hex_digit (n : Z) :
  0 <= n < 16 -> hex_value (SHA1.hex_digit n) = Some n.
Proof.
  intros Hn. unfold hex_value, SHA1.hex_digit.
  destruct (Z.ltb_spec n 10);
    repeat match goal with
           | |- context [?a <=? ?b] => destruct (Z.leb_spec a b); try lia
           end;
    cbn [andb]; f_equal; lia.
Qed.

Lemma int_digits_hex (b : bytes) (acc : Z) :
  Forall octet b ->
  int_digits acc
    (flat_map (fun o => [SHA1.hex_digit (o / 16); SHA1.hex_digit (o mod 16)]) b)
  = Ok (fold_left (fun a o => a * 256 + o) b acc).
Proof.
  intros Hb. revert acc.
  induction Hb as [ | o rest Ho _ IH]; intros acc; [reflexivity | ].
  unfold octet in Ho. cbn [flat_map app int_digits fold_left].
  rewrite !hex_value_hex_digit.
  - rewrite IH. do 2 f_equal.
    pose proof (Z.div_mod o 16 ltac:(lia)). lia.
  - apply Z.mod_pos_bound. lia.
  - split; [apply Z.div_pos; lia | apply Z.div_lt_upper_bound; lia].
Qed.

(** [int(hexdigest, 16)] is the digest read as a big-endian integer. *)
Lemma int_base16_hexdigest (msg : bytes) :
  int_base16 (SHA1.hexdigest msg) = Ok (be_value (SHA1.digest msg)).
Proof.
  unfold SHA1.hexdigest, int_base16, be_value.
  pose proof (digest_length msg) as Hlen.
  pose proof (int_digits_hex (SHA1.digest msg) 0 (digest_octets msg)) as Hint.
  destruct (SHA1.digest msg) as [ | o rest]; [discriminate | ].
  exact Hint.
Qed.

Lemma be_value_bound (b : bytes) :
  Forall octet b -> 0 <= be_value b < 256 ^ Z.of_nat (List.length b).
Proof.
  unfold be_value. intros Hb.
  assert (H : forall acc k, 0 <= k -> 0 <= acc < 256 ^ k ->
            0 <= fold_left (fun a o => a * 256 + o) b acc
              < 256 ^ (k + Z.of_nat (List.length b))).
  { induction Hb as [ | o rest Ho _ IH]; intros acc k Hk Hacc.
    - cbn [fold_left List.length]. now rewrite Z.add_0_r.
    - cbn [fold_left]. unfold octet in Ho.
      replace (k + Z.of_nat (List.length (o :: rest)))
        with ((k + 1) + Z.of_nat (List.length rest))
        by (cbn [List.length]; lia).
      apply IH; [lia | ].
      rewrite Z.pow_add_r by lia. lia. }
  apply (H 0 0); [lia | cbn; lia].
Qed.

Lemma filename_to_int_hash_encoded (text : str) (encoded : bytes) :
  encode_utf8 text = Ok encoded ->
  filename_to_int_hash text = Ok (be_value (SHA1.digest encoded)).
Proof.
  intros H. unfold filename_to_int_hash. rewrite H. cbn [bind].
  apply int_base16_hexdigest.
Qed.

(** Known answers: the digests of [abc], of the empty message and of a
    message that needs two blocks, and the integer read from the first. *)
Example sha1_abc :
  SHA1.hexdigest (lit "abc") = lit "a9993e364706816aba3e25717850c26c9cd0d89d".
Proof. vm_compute. reflexivity. Qed.

Example sha1_empty :
  SHA1.hexdigest [] = lit "da39a3ee5e6b4b0d3255bfef95601890afd80709".
Proof. vm_compute. reflexivity. Qed.

Example sha1_two_blocks :
  SHA1.hexdigest
    (lit "abcdbcdecdefdefgefghfghighijhijkijkljklmklmnlmnomnopnopq")
  = lit "84983e441c3bd26ebaae4aa1f95129e5e54670f1".
Proof. vm_compute. reflexivity. Qed.

Example filename_to_int_hash_abc :
  filename_to_int_hash (lit "abc")
  = Ok 968236873715988614170569073515315707566766479517.
Proof. vm_compute. reflexivity. Qed.

(** C6, as the code has it.  For every identifier string without surrogate
    code points, [filename_to_int_hash] returns the SHA-1 digest of the
    identifier's UTF-8 bytes read as an unsigned big-endian integer: a value
    in [[0, 2^160)], so that the bucket [digest mod 100] lies in [[0, 99]]. *)
Theorem filename_to_int_hash_range (text : str) :
  no_surrogate text ->
  exists encoded digest,
    encode_utf8 text = Ok encoded /\
    filename_to_int_hash text = Ok digest /\
    digest = be_value (SHA1.digest encoded) /\
    0 <= digest < 2 ^ 160 /\
    0 <= digest mod 100 <= 99.
Proof.
  intros Hs. destruct (proj2 (encode_utf8_returns_iff text) Hs) as [encoded He].
  exists encoded, (be_value (SHA1.digest encoded)).
  split; [assumption | ].
  split; [now apply filename_to_int_hash_encoded | ].
  split; [reflexivity | ].
  split; [ | apply bucket_range].
  pose proof (be_value_bound _ (digest_octets encoded)) as Hb.
  rewrite digest_length in Hb. exact Hb.
Qed.

Lemma filename_to_int_hash_range_witness :
  exists encoded digest,
    encode_utf8 (lit "a/b.wav") = Ok encoded /\
    filename_to_int_hash (lit "a/b.wav") = Ok digest /\
    digest = be_value (SHA1.digest encoded) /\
    0 <= digest < 2 ^ 160 /\
    0 <= digest mod 100 <= 99.
Proof.
  apply (filename_to_int_hash_range (lit "a/b.wav")).
  unfold no_surrogate. cbn [lit list_ascii_of_string map].
  repeat constructor.
Defined.

(** C6 fails as stated: the one-character string made of the lone surrogate
    U+D800 is a [str], and hashing it raises [UnicodeEncodeError]. *)
Lemma filename_to_int_hash_surrogate_raises :
  Forall code_point [0xD800] /\
  filename_to_int_hash [0xD800] = Raise UnicodeEncodeError.
Proof.
  split; [repeat constructor; unfold code_point; lia | reflexivity].
Qed.

(** ** Paths *)

Lemma rfind_no_sep (p : str) : ~ In Path.sep p -> Path.rfind p = -1.
Proof.
  induction p as [ | c rest IH]; cbn [Path.rfind In]; intros H; [reflexivity | ].
  rewrite IH by tauto. cbn.
  destruct (Z.eqb_spec c Path.sep); [exfalso; auto | reflexivity].
Qed.

Lemma rfind_last_sep (dir name : str) :
  ~ In Path.sep name ->
  Path.rfind (dir ++ Path.sep :: name) = Z.of_nat (List.length dir).
Proof.
  intros Hname. induction dir as [ | c rest IH].
  - cbn [app Path.rfind List.length]. rewrite (rfind_no_sep name Hname).
    cbn. reflexivity.
  - cbn [app Path.rfind List.length]. rewrite IH.
    destruct (Z.leb_spec 0 (Z.of_nat (List.length rest))); lia.
Qed.

(** Every path is a bare name, or a directory prefix, a separator and a
    name without separators. *)
Lemma path_decompose (p : str) :
  ~ In Path.sep p \/
  exists dir name, p = dir ++ Path.sep :: name /\ ~ In Path.sep name.
Proof.
  induction p as [ | c rest IH].
  - left. intros [].
  - destruct IH as [Hfree | [dir [name [-> Hname]]]].
    + destruct (Z.eq_dec c Path.sep) as [-> | Hc].
      * right. exists [], rest. auto.
      * left. cbn [In]. intros [H | H]; auto.
    + right. exists (c :: dir), name. auto.
Qed.

Lemma split_tail_bare (name : str) :
  ~ In Path.sep name -> snd (Path.split name) = name.
Proof.
  intros H. unfold Path.split. cbn [snd]. now rewrite (rfind_no_sep name H).
Qed.

Lemma split_tail_prefixed (dir name : str) :
  ~ In Path.sep name -> snd (Path.split (dir ++ Path.sep :: name)) = name.
Proof.
  intros H. unfold Path.split, Path.from. cbn [snd].
  rewrite (rfind_last_sep dir name H).
  replace (Z.to_nat (Z.of_nat (List.length dir) + 1)) with (S (List.length dir))
    by lia.
  rewrite skipn_app, skipn_all2 by lia.
  replace (S (List.length dir) - List.length dir)%nat with 1%nat by lia.
  reflexivity.
Qed.

(** The tail that [os.path.split] returns never contains a separator. *)
Lemma split_tail_no_sep (p : str) : ~ In Path.sep (snd (Path.split p)).
Proof.
  destruct (path_decompose p) as [H | [dir [name [-> H]]]].
  - now rewrite split_tail_bare.
  - now rewrite split_tail_prefixed.
Qed.

Lemma join_relative (a b : str) :
  ~ In Path.sep b ->
  Path.join a b =
  if Path.is_empty a || Path.endswith_sep a then a ++ b
  else a ++ [Path.sep] ++ b.
Proof.
  intros Hb. unfold Path.join.
  destruct b as [ | c rest]; [reflexivity | ].
  cbn [Path.startswith_sep].
  destruct (Z.eqb_spec c Path.sep) as [-> | _]; [ | reflexivity].
  exfalso. apply Hb. now left.
Qed.

Lemma new_basedir_bare (name basedir : str) :
  ~ In Path.sep name -> new_basedir name basedir = Path.join basedir name.
Proof. intros H. unfold new_basedir. now rewrite split_tail_bare. Qed.

Lemma new_basedir_prefixed (dir name basedir : str) :
  ~ In Path.sep name ->
  new_basedir (dir ++ Path.sep :: name) basedir = Path.join basedir name.
Proof. intros H. unfold new_basedir. now rewrite split_tail_prefixed. Qed.

Example new_basedir_nested :
  new_basedir (lit "data/raw/clip.wav") (lit "_workdir") = lit "_workdir/clip.wav".
Proof. reflexivity. Qed.

Example new_basedir_trailing_sep :
  new_basedir (lit "clip.wav") (lit "_workdir/") = lit "_workdir/clip.wav".
Proof. reflexivity. Qed.

(** C10.  For every filename and basedir, [new_basedir(filename, basedir)]
    is [os.path.join] of [basedir] with the final path component of
    [filename], the part after its last separator (all of it when it has
    none); the directory prefix is discarded: the same component under any
    other prefix, or under none, gives the same result. *)
Theorem new_basedir_final_component (filename basedir : str) :
  exists name,
    ~ In Path.sep name /\
    (filename = name \/ exists dir, filename = dir ++ Path.sep :: name) /\
    new_basedir filename basedir = Path.join basedir name /\
    new_basedir name basedir = new_basedir filename basedir /\
    forall dir',
      new_basedir (dir' ++ Path.sep :: name) basedir
      = new_basedir filename basedir.
Proof.
  destruct (path_decompose filename) as [H | [dir [name [-> H]]]].
  - exists filename. split; [assumption | ]. split; [now left | ].
    rewrite (new_basedir_bare filename basedir H).
    repeat split. intros dir'. now apply new_basedir_prefixed.
  - exists name. split; [assumption | ]. split; [right; now exists dir | ].
    rewrite (new_basedir_prefixed dir name basedir H).
    split; [reflexivity | ].
    split; [now apply new_basedir_bare | ].
    intros dir'. now apply new_basedir_prefixed.
Qed.

(** * Further properties *)

(** ** Proportions of the split *)

(** On [int] percentages, which label a digest gets, as tests on its
    bucket. *)
Lemma gives_Int (d v t : Z) :
  gives "valid" (which_set d (Int v) (Int t)) = (d mod 100 <? v) /\
  gives "test" (which_set d (Int v) (Int t))
  = negb (d mod 100 <? v) && (d mod 100 <? t + v) /\
  gives "train" (which_set d (Int v) (Int t))
  = negb (d mod 100 <? v) && negb (d mod 100 <? t + v).
Proof.
  rewrite which_set_Int. unfold gives.
  destruct (d mod 100 <? v); [now repeat split | ].
  destruct (d mod 100 <? t + v); now repeat split.
Qed.

(** Counting in a window does not depend on where the window starts, for a
    test that only looks at the bucket. *)
Lemma shift_succ (a : Z) (n : nat) :
  map (fun i => a + 1 + Z.of_nat i) (seq 0 (S n))
  = tl (map (fun i => a + Z.of_nat i) (seq 0 (S n))) ++ [a + Z.of_nat (S n)].
Proof.
  rewrite seq_S at 1. rewrite map_app. cbn [seq map tl Nat.add].
  rewrite <- seq_shift, map_map. f_equal.
  - apply map_ext. intros i. lia.
  - f_equal. lia.
Qed.

Lemma window_succ (a : Z) :
  window (a + 1) = tl (window a) ++ [a + 100] /\ window a = a :: tl (window a).
Proof.
  split.
  - exact (shift_succ a 99).
  - unfold window. change (seq 0 100) with (0%nat :: seq 1 99). cbn [map tl].
    f_equal. lia.
Qed.

Lemma count_shift (h : Z -> bool) (a : Z) (w : list Z) :
  (forall x, h (x + 100) = h x) ->
  List.length (filter h (w ++ [a + 100])) = List.length (filter h (a :: w)).
Proof.
  intros Hper. rewrite filter_app, length_app. cbn [filter]. rewrite Hper.
  destruct (h a); cbn [List.length]; lia.
Qed.

Lemma count_window_shift (h : Z -> bool) (a : Z) :
  (forall x, h (x + 100) = h x) ->
  List.length (filter h (window (a + 1))) = List.length (filter h (window a)).
Proof.
  intros Hper. destruct (window_succ a) as [Hs Hw]. rewrite Hs, Hw.
  now apply count_shift.
Qed.

Lemma count_window (h : Z -> bool) (a : Z) :
  (forall x, h (x + 100) = h x) ->
  List.length (filter h (window a)) = List.length (filter h (window 0)).
Proof.
  intros Hper. pattern a. apply Z.peano_ind; clear a.
  - reflexivity.
  - intros a IH. unfold Z.succ. now rewrite count_window_shift.
  - intros a IH. rewrite <- IH.
    replace a with (Z.pred a + 1) at 2 by lia.
    now rewrite count_window_shift.
Qed.

(** How many of the numbers [0 .. n-1] lie below a bound, between two
    bounds, and above a bound. *)
Lemma count_below (n : nat) (v : Z) :
  0 <= v ->
  List.length (filter (fun b => b <? v) (map Z.of_nat (seq 0 n)))
  = Z.to_nat (Z.min v (Z.of_nat n)).
Proof.
  intros Hv. induction n as [ | n IH]; [cbn; lia | ].
  rewrite seq_S, map_app, filter_app, length_app, IH. cbn [map filter Nat.add].
  destruct (Z.ltb_spec (Z.of_nat n) v); cbn [List.length]; lia.
Qed.

Lemma count_between (n : nat) (v s : Z) :
  0 <= v <= s ->
  List.length (filter (fun b => negb (b <? v) && (b <? s))
                 (map Z.of_nat (seq 0 n)))
  = Z.to_nat (Z.min s (Z.of_nat n) - Z.min v (Z.of_nat n)).
Proof.
  intros Hv. induction n as [ | n IH]; [cbn; lia | ].
  rewrite seq_S, map_app, filter_app, length_app, IH. cbn [map filter Nat.add].
  destruct (Z.ltb_spec (Z.of_nat n) v); destruct (Z.ltb_spec (Z.of_nat n) s);
    cbn [negb andb List.length]; lia.
Qed.

Lemma count_above (n : nat) (v s : Z) :
  0 <= v <= s ->
  List.length (filter (fun b => negb (b <? v) && negb (b <? s))
                 (map Z.of_nat (seq 0 n)))
  = Z.to_nat (Z.of_nat n - Z.min s (Z.of_nat n)).
Proof.
  intros Hv. induction n as [ | n IH]; [cbn; lia | ].
  rewrite seq_S, map_app, filter_app, length_app, IH. cbn [map filter Nat.add].
  destruct (Z.ltb_spec (Z.of_nat n) v); destruct (Z.ltb_spec (Z.of_nat n) s);
    cbn [negb andb List.length]; lia.
Qed.

(** Counting by bucket in any window is counting over [0 .. 99]. *)
Lemma filter_mod_small (g : Z -> bool) (n : nat) (m : Z) :
  m = Z.of_nat n ->
  filter (fun d => g (d mod m)) (map Z.of_nat (seq 0 n))
  = filter g (map Z.of_nat (seq 0 n)).
Proof.
  intros ->. apply filter_ext_in. intros d Hd.
  apply in_map_iff in Hd as [i [<- Hi]]. apply in_seq in Hi.
  now rewrite Z.mod_small by lia.
Qed.

Lemma mod_100_periodic (g : Z -> bool) (x : Z) :
  g ((x + 100) mod 100) = g (x mod 100).
Proof.
  f_equal. replace (x + 100) with (x + 1 * 100) by lia. apply Z.mod_add. lia.
Qed.

Lemma window_0 : window 0 = map Z.of_nat (seq 0 100).
Proof. reflexivity. Qed.

Lemma count_buckets (g : Z -> bool) (a : Z) :
  List.length (filter (fun d => g (d mod 100)) (window a))
  = List.length (filter g (map Z.of_nat (seq 0 100))).
Proof.
  rewrite (count_window (fun d => g (d mod 100)) a (mod_100_periodic g)).
  rewrite window_0. apply f_equal.
  apply (filter_mod_small g 100 100). reflexivity.
Qed.


Lemma tally_window (l : string) (v t : Z) (g : Z -> bool) (a : Z) :
  (forall d, gives l (which_set d (Int v) (Int t)) = g (d mod 100)) ->
  tally l (Int v) (Int t) (window a)
  = List.length (filter g (map Z.of_nat (seq 0 100))).
Proof.
  intros H. rewrite <- (count_buckets g a). unfold tally. f_equal.
  apply filter_ext. exact H.
Qed.

(** X1.  Among any hundred consecutive integer digests, [int] percentages
    [v >= 0] and [t >= 0] send [min(v, 100)] digests to "valid",
    [min(v + t, 100) - min(v, 100)] to "test" and the others to "train": for
    [v + t <= 100] the shares are [v], [t] and [100 - v - t], and beyond
    that it is the training share that is cut. *)
Theorem split_proportions (a v t : Z) :
  0 <= v -> 0 <= t ->
  Z.of_nat (tally "valid" (Int v) (Int t) (window a)) = Z.min v 100 /\
  Z.of_nat (tally "test" (Int v) (Int t) (window a))
  = Z.min (v + t) 100 - Z.min v 100 /\
  Z.of_nat (tally "train" (Int v) (Int t) (window a))
  = 100 - Z.min (v + t) 100.
Proof.
  intros Hv Ht.
  rewrite (tally_window "valid" v t (fun b => b <? v) a)
    by (intros d; apply (gives_Int d v t)).
  rewrite (tally_window "test" v t
             (fun b => negb (b <? v) && (b <? t + v)) a)
    by (intros d; apply (gives_Int d v t)).
  rewrite (tally_window "train" v t
             (fun b => negb (b <? v) && negb (b <? t + v)) a)
    by (intros d; apply (gives_Int d v t)).
  rewrite (count_below 100 v Hv).
  rewrite (count_between 100 v (t + v)) by lia.
  rewrite (count_above 100 v (t + v)) by lia.
  change (Z.of_nat 100) with 100. repeat split; lia.
Qed.

Lemma split_proportions_witness :
  Z.of_nat (tally "valid" (Int 10) (Int 35) (window 12345)) = Z.min 10 100 /\
  Z.of_nat (tally "test" (Int 10) (Int 35) (window 12345))
  = Z.min (10 + 35) 100 - Z.min 10 100 /\
  Z.of_nat (tally "train" (Int 10) (Int 35) (window 12345))
  = 100 - Z.min (10 + 35) 100.
Proof. apply (split_proportions 12345 10 35); lia. Defined.

(** X2.  Out-of-range [int] percentages: a validation percentage of 0 or
    less leaves "valid" empty and one of 100 or more makes everything
    "valid"; a testing percentage of 0 or less leaves "test" empty; a sum of
    100 or more leaves "train" empty. *)
Theorem which_set_degenerate (digest v t : Z) :
  (v <= 0 -> which_set digest v t <> Ok "valid") /\
  (100 <= v -> which_set digest v t = Ok "valid") /\
  (t <= 0 -> which_set digest v t <> Ok "test") /\
  (100 <= v + t -> which_set digest v t <> Ok "train").
Proof.
  rewrite which_set_Int. pose proof (bucket_range digest).
  destruct (Z.ltb_spec (digest mod 100) v);
    destruct (Z.ltb_spec (digest mod 100) (t + v));
    repeat split; intros; try reflexivity; try discriminate; lia.
Qed.

Lemma which_set_degenerate_witness :
  which_set 12345 0 10 <> Ok "valid" /\
  which_set 12345 100 10 = Ok "valid" /\
  which_set 12345 10 0 <> Ok "test" /\
  which_set 12345 60 40 <> Ok "train".
Proof.
  split; [ | split; [ | split]].
  - apply (proj1 (which_set_degenerate 12345 0 10)). lia.
  - apply (proj1 (proj2 (which_set_degenerate 12345 100 10))). lia.
  - apply (proj1 (proj2 (proj2 (which_set_degenerate 12345 10 0)))). lia.
  - apply (proj2 (proj2 (proj2 (which_set_degenerate 12345 60 40)))). lia.
Defined.

(** X3.  Growing the held-out shares never releases a held-out file: with
    [int] percentages, if the validation percentage and the sum of the two
    percentages do not decrease, a digest that was "valid" stays "valid",
    and a digest that is "train" afterwards was "train" before. *)
Theorem which_set_monotone (digest v t v' t' : Z) :
  v <= v' -> v + t <= v' + t' ->
  (which_set digest v t = Ok "valid" -> which_set digest v' t' = Ok "valid") /\
  (which_set digest v' t' = Ok "train" -> which_set digest v t = Ok "train").
Proof.
  intros Hv Hs. rewrite !which_set_Int.
  destruct (Z.ltb_spec (digest mod 100) v);
    destruct (Z.ltb_spec (digest mod 100) (t + v));
    destruct (Z.ltb_spec (digest mod 100) v');
    destruct (Z.ltb_spec (digest mod 100) (t' + v'));
    split; intros; try reflexivity; try discriminate; lia.
Qed.

Lemma which_set_monotone_witness :
  (which_set 12305 10 10 = Ok "valid" -> which_set 12305 15 20 = Ok "valid") /\
  (which_set 12305 15 20 = Ok "train" -> which_set 12305 10 10 = Ok "train").
Proof. apply (which_set_monotone 12305 10 10 15 20); lia. Defined.

Lemma float_of_int_raises (x : Z) (e : exn) :
  float_of_int x = Raise e -> e = OverflowError.
Proof.
  unfold float_of_int.
  destruct (binary_normalize prec emax x 0 false); congruence.
Qed.

Lemma add_raises (a b : number) (e : exn) :
  (a + b)%py = Raise e <->
  e = OverflowError /\
  exists x, float_of_int x = Raise OverflowError /\
            ((exists f, a = Int x /\ b = Float f) \/
             (exists f, a = Float f /\ b = Int x)).
Proof.
  destruct a as [x | fx], b as [y | fy]; cbn [add].
  - split; [discriminate | intros [_ [z [_ [[f [_ H]] | [f [H _]]]]]]; discriminate].
  - destruct (float_of_int x) as [f | e0] eqn:Hx; cbn [bind].
    + split; [discriminate | ].
      intros [_ [z [Hz [[f' [[= <-] _]] | [f' [H _]]]]]]; congruence.
    + pose proof (float_of_int_raises x e0 Hx) as ->. split.
      * intros [= <-]. split; [reflexivity | ].
        exists x. split; [assumption | left; now exists fy].
      * now intros [-> _].
  - destruct (float_of_int y) as [f | e0] eqn:Hy; cbn [bind].
    + split; [discriminate | ].
      intros [_ [z [Hz [[f' [H _]] | [f' [_ [= <-]]]]]]]; congruence.
    + pose proof (float_of_int_raises y e0 Hy) as ->. split.
      * intros [= <-]. split; [reflexivity | ].
        exists y. split; [assumption | right; now exists fx].
      * now intros [-> _].
  - split; [discriminate | intros [_ [z [_ [[f [H _]] | [f [_ H]]]]]]; discriminate].
Qed.

(** X4.  The only exception [which_set] raises is [OverflowError], and it
    raises it exactly when the bucket is not below the validation percentage
    and one percentage is a [float] while the other is an [int] that does
    not convert to a [float]. *)
Theorem which_set_raises_overflow (digest : Z) (v t : number) (e : exn) :
  which_set digest v t = Raise e <->
  e = OverflowError /\
  (Int (digest mod 100) <? v)%py = false /\
  exists x, float_of_int x = Raise OverflowError /\
            ((exists f, t = Int x /\ v = Float f) \/
             (exists f, t = Float f /\ v = Int x)).
Proof.
  pose proof (add_raises t v e) as Hadd.
  unfold which_set. destruct (Int (digest mod 100) <? v)%py.
  - split; [discriminate | intros [_ [H _]]; discriminate].
  - destruct (t + v)%py as [bound | e0]; cbn [bind].
    + split.
      * destruct (Int (digest mod 100) <? bound)%py; discriminate.
      * intros [He [_ H]]. discriminate (proj2 Hadd (conj He H)).
    + split.
      * intros [= <-]. destruct (proj1 Hadd eq_refl) as [He Hx]. auto.
      * intros [He [_ H]]. pose proof (proj2 Hadd (conj He H)). congruence.
Qed.

(** ** Hashing an identifier: what can go wrong *)

Lemma encode_utf8_raises (s : str) (e : exn) :
  encode_utf8 s = Raise e <->
  e = UnicodeEncodeError /\ Exists (fun c => surrogate c = true) s.
Proof.
  induction s as [ | c rest IH]; cbn [encode_utf8].
  - split; [discriminate | intros [_ H]; inversion H].
  - destruct (surrogate c) eqn:Hc.
    + rewrite (encode_code_point_surrogate c Hc). cbn [bind]. split.
      * intros [= <-]. split; [reflexivity | now left].
      * now intros [-> _].
    + destruct (encode_code_point_returns c Hc) as [b ->]. cbn [bind].
      destruct (encode_utf8 rest) as [bs | e0]; cbn [bind].
      * split; [discriminate | ].
        intros [He H]. inversion H as [? ? Hs | ? ? Hs]; subst; [congruence | ].
        exfalso. now discriminate (proj2 IH (conj eq_refl Hs)).
      * split.
        -- intros [= <-]. destruct (proj1 IH eq_refl) as [-> Hs].
           split; [reflexivity | now right].
        -- intros [-> H].
           inversion H as [? ? Hs | ? ? Hs]; subst; [congruence | ].
           exact (proj2 IH (conj eq_refl Hs)).
Qed.

(** X5.  [filename_to_int_hash] raises exactly on the strings that hold a
    surrogate code point, and then it raises [UnicodeEncodeError]; reading
    the hex digest back with [int(..., 16)] never fails. *)
Theorem filename_to_int_hash_raises (text : str) (e : exn) :
  filename_to_int_hash text = Raise e <->
  e = UnicodeEncodeError /\ Exists (fun c => surrogate c = true) text.
Proof.
  rewrite <- encode_utf8_raises. unfold filename_to_int_hash.
  destruct (encode_utf8 text) as [encoded | e0]; cbn [bind].
  - rewrite int_base16_hexdigest. split; discriminate.
  - split; congruence.
Qed.

(** X6.  The whole assignment [which_set(filename_to_int_hash(id), v, t)]
    with [int] percentages: for an identifier without surrogates it returns
    one of the three labels, the one [which_set] gives for the SHA-1 digest
    of the UTF-8 bytes read as a big-endian integer; for any other
    identifier it raises [UnicodeEncodeError], whatever the percentages. *)
Theorem split_of_outcome (id : str) (v t : Z) :
  (no_surrogate id ->
   exists encoded r,
     encode_utf8 id = Ok encoded /\
     split_of id v t = which_set (be_value (SHA1.digest encoded)) v t /\
     split_of id v t = Ok r /\ label r) /\
  (~ no_surrogate id ->
   forall v' t' : number, split_of id v' t' = Raise UnicodeEncodeError).
Proof.
  split.
  - intros Hs. destruct (proj2 (encode_utf8_returns_iff id) Hs) as [encoded He].
    assert (Hsplit : split_of id v t
                     = which_set (be_value (SHA1.digest encoded)) v t).
    { unfold split_of.
      now rewrite (filename_to_int_hash_encoded id encoded He). }
    destruct (which_set_label (be_value (SHA1.digest encoded)) (Int v) (Int t))
      as [r [Hr Hl]].
    { left. now exists (Int (t + v)). }
    exists encoded, r. rewrite Hsplit. auto.
  - intros Hs v' t'. unfold split_of.
    destruct (filename_to_int_hash id) as [n | e] eqn:Hh.
    + exfalso. apply Hs. apply encode_utf8_returns_iff.
      unfold filename_to_int_hash in Hh.
      destruct (encode_utf8 id) as [b | ]; [now exists b | discriminate].
    + cbn [bind]. f_equal. unfold filename_to_int_hash in Hh.
      destruct (encode_utf8 id) as [b | e0] eqn:He; cbn [bind] in Hh.
      * rewrite int_base16_hexdigest in Hh. discriminate.
      * injection Hh as <-. now apply (encode_utf8_raises id e0).
Qed.

Lemma split_of_outcome_witness :
  exists encoded r,
    encode_utf8 (lit "a/b.wav") = Ok encoded /\
    split_of (lit "a/b.wav") 10 10
    = which_set (be_value (SHA1.digest encoded)) 10 10 /\
    split_of (lit "a/b.wav") 10 10 = Ok r /\ label r.
Proof.
  apply (proj1 (split_of_outcome (lit "a/b.wav") 10 10)).
  unfold no_surrogate. cbn [lit list_ascii_of_string map].
  repeat constructor.
Defined.

(** ** UTF-8 is one to one *)

(** The bit operations of the encoder, as arithmetic. *)
Lemma lor_small (hi : Z) (n : nat) :
  forallb (fun x => Z.lor hi x =? hi + x) (map Z.of_nat (seq 0 n)) = true ->
  forall x, 0 <= x < Z.of_nat n -> Z.lor hi x = hi + x.
Proof.
  intros H x Hx. rewrite forallb_forall in H.
  apply Z.eqb_eq, H, in_map_iff. exists (Z.to_nat x).
  split; [lia | apply in_seq; lia].
Qed.

Lemma lor_0x80 (x : Z) : 0 <= x < 64 -> Z.lor 0x80 x = 128 + x.
Proof. apply (lor_small 0x80 64). vm_compute. reflexivity. Qed.

Lemma lor_0xC0 (x : Z) : 0 <= x < 32 -> Z.lor 0xC0 x = 192 + x.
Proof. apply (lor_small 0xC0 32). vm_compute. reflexivity. Qed.

Lemma lor_0xE0 (x : Z) : 0 <= x < 16 -> Z.lor 0xE0 x = 224 + x.
Proof. apply (lor_small 0xE0 16). vm_compute. reflexivity. Qed.

Lemma lor_0xF0 (x : Z) : 0 <= x < 8 -> Z.lor 0xF0 x = 240 + x.
Proof. apply (lor_small 0xF0 8). vm_compute. reflexivity. Qed.

Lemma land_0x3F (x : Z) : Z.land x 0x3F = x mod 64.
Proof. change 0x3F with (Z.ones 6). now rewrite Z.land_ones by lia. Qed.

Lemma encode_code_point_arith (c : Z) :
  code_point c ->
  encode_code_point c =
  if c <? 0x80 then Ok [c]
  else if c <? 0x800 then Ok [192 + c / 64; 128 + c mod 64]
  else if c <? 0x10000 then
    if surrogate c then Raise UnicodeEncodeError
    else Ok [224 + c / 4096; 128 + (c / 64) mod 64; 128 + c mod 64]
  else Ok [240 + c / 262144; 128 + (c / 4096) mod 64;
           128 + (c / 64) mod 64; 128 + c mod 64].
Proof.
  unfold code_point, encode_code_point. intros Hc.
  rewrite !land_0x3F, !Z.shiftr_div_pow2 by lia.
  change (2 ^ 6) with 64. change (2 ^ 12) with 4096. change (2 ^ 18) with 262144.
  assert (Hm : forall y, 0 <= y mod 64 < 64) by (intros; apply Z.mod_pos_bound; lia).
  destruct (Z.ltb_spec c 0x80); [reflexivity | ].
  destruct (Z.ltb_spec c 0x800).
  { rewrite lor_0xC0, lor_0x80; auto.
    split; [apply Z.div_pos; lia | apply Z.div_lt_upper_bound; lia]. }
  destruct (Z.ltb_spec c 0x10000).
  { destruct (surrogate c); [reflexivity | ].
    rewrite lor_0xE0, !lor_0x80; auto.
    split; [apply Z.div_pos; lia | apply Z.div_lt_upper_bound; lia]. }
  rewrite lor_0xF0, !lor_0x80; auto.
  split; [apply Z.div_pos; lia | apply Z.div_lt_upper_bound; lia].
Qed.

Lemma cons_inj {A : Type} (x y : A) (l l' : list A) :
  x :: l = y :: l' -> x = y /\ l = l'.
Proof. intros H. now injection H. Qed.

(** From an equation between two lists with explicit fronts, the equations
    between the fronts, element by element. *)
Ltac heads E :=
  repeat (let H := fresh "Hhead" in apply cons_inj in E as [H E]).

(** The encoding of a code point is recognised at the front of a byte
    string: no encoding is a prefix of another one's continuation. *)
Lemma encode_code_point_prefix (c1 c2 : Z) (b1 b2 r1 r2 : bytes) :
  code_point c1 -> code_point c2 ->
  encode_code_point c1 = Ok b1 -> encode_code_point c2 = Ok b2 ->
  b1 ++ r1 = b2 ++ r2 -> c1 = c2.
Proof.
  intros H1 H2. rewrite (encode_code_point_arith c1 H1), (encode_code_point_arith c2 H2).
  unfold code_point in *.
  destruct (Z.ltb_spec c1 0x80); [ | destruct (Z.ltb_spec c1 0x800);
    [ | destruct (Z.ltb_spec c1 0x10000); [destruct (surrogate c1) | ]]];
  (destruct (Z.ltb_spec c2 0x80); [ | destruct (Z.ltb_spec c2 0x800);
    [ | destruct (Z.ltb_spec c2 0x10000); [destruct (surrogate c2) | ]]]);
  intros E1 E2; try discriminate;
  apply Ok_inj in E1; apply Ok_inj in E2; subst b1 b2; cbn [app];
  intros E; heads E; Z.div_mod_to_equations; lia.
Qed.

Lemma encode_code_point_nonempty (c : Z) (b : bytes) :
  encode_code_point c = Ok b -> b <> [].
Proof.
  unfold encode_code_point.
  destruct (c <? 0x80); [intros H; apply Ok_inj in H; now subst | ].
  destruct (c <? 0x800); [intros H; apply Ok_inj in H; now subst | ].
  destruct (c <? 0x10000); [destruct (surrogate c); [discriminate | ] | ];
    intros H; apply Ok_inj in H; now subst.
Qed.

(** X7.  Encoding is one to one: two strings of code points with the same
    UTF-8 bytes are the same string, so two different identifiers never
    reach SHA-1 with the same input. *)
Theorem encode_utf8_injective (s1 s2 : str) (b : bytes) :
  Forall code_point s1 -> Forall code_point s2 ->
  encode_utf8 s1 = Ok b -> encode_utf8 s2 = Ok b -> s1 = s2.
Proof.
  intros Hs1. revert s2 b.
  induction Hs1 as [ | c1 rest1 Hc1 _ IH]; intros s2 b Hs2 E1 E2.
  - cbn [encode_utf8] in E1. apply Ok_inj in E1. subst b.
    destruct s2 as [ | c2 rest2]; [reflexivity | exfalso].
    cbn [encode_utf8] in E2.
    destruct (encode_code_point c2) as [b2 | ] eqn:Hb2; [ | discriminate].
    cbn [bind] in E2.
    destruct (encode_utf8 rest2) as [bs2 | ]; [ | discriminate].
    cbn [bind] in E2. apply Ok_inj in E2.
    apply (encode_code_point_nonempty c2 b2 Hb2).
    now destruct b2.
  - cbn [encode_utf8] in E1.
    destruct (encode_code_point c1) as [b1 | ] eqn:Hb1; [ | discriminate].
    cbn [bind] in E1.
    destruct (encode_utf8 rest1) as [bs1 | ] eqn:Hr1; [ | discriminate].
    cbn [bind] in E1. apply Ok_inj in E1. subst b.
    destruct s2 as [ | c2 rest2].
    + exfalso. cbn [encode_utf8] in E2. apply Ok_inj in E2.
      apply (encode_code_point_nonempty c1 b1 Hb1).
      now destruct b1.
    + inversion Hs2 as [ | ? ? Hc2 Hrest2]; subst.
      cbn [encode_utf8] in E2.
      destruct (encode_code_point c2) as [b2 | ] eqn:Hb2; [ | discriminate].
      cbn [bind] in E2.
      destruct (encode_utf8 rest2) as [bs2 | ] eqn:Hr2; [ | discriminate].
      cbn [bind] in E2. apply Ok_inj in E2.
      assert (c1 = c2) by
        (apply (encode_code_point_prefix c1 c2 b1 b2 bs1 bs2); auto).
      subst c2. rewrite Hb1 in Hb2. apply Ok_inj in Hb2. subst b2.
      apply app_inv_head in E2. subst bs2.
      f_equal. apply (IH rest2 bs1); auto.
Qed.

Lemma encode_utf8_injective_witness : [0xE9; 0x20AC] = [0xE9; 0x20AC].
Proof.
  apply (encode_utf8_injective [0xE9; 0x20AC] [0xE9; 0x20AC]
           [0xC3; 0xA9; 0xE2; 0x82; 0xAC]);
    try reflexivity; repeat constructor; unfold code_point; lia.
Defined.

(** ** Moving a file under a new base directory *)

Lemma rstrip_snoc (l : str) (c : Z) :
  Path.rstrip (l ++ [c]) = if c =? Path.sep then Path.rstrip l else l ++ [c].
Proof.
  induction l as [ | x l IH]; cbn [app Path.rstrip].
  - now destruct (c =? Path.sep).
  - rewrite IH. destruct (c =? Path.sep); [reflexivity | ].
    now destruct l.
Qed.

Lemma endswith_sep_snoc (l : str) (c : Z) :
  Path.endswith_sep (l ++ [c]) = (c =? Path.sep).
Proof. unfold Path.endswith_sep. now rewrite rev_app_distr. Qed.

Lemma rstrip_no_trailing_sep (l : str) :
  Path.endswith_sep l = false -> Path.rstrip l = l.
Proof.
  destruct l as [ | x l] using rev_ind; [reflexivity | ].
  rewrite endswith_sep_snoc, rstrip_snoc. now intros ->.
Qed.

Lemma all_sep_snoc (l : str) (c : Z) :
  Path.all_sep (l ++ [c]) = Path.all_sep l && (c =? Path.sep).
Proof.
  unfold Path.all_sep. rewrite forallb_app. cbn [forallb].
  now rewrite andb_true_r.
Qed.

Lemma all_sep_endswith (l : str) :
  l <> [] -> Path.all_sep l = true -> Path.endswith_sep l = true.
Proof.
  destruct l as [ | x l] using rev_ind; [congruence | ].
  rewrite all_sep_snoc, endswith_sep_snoc. intros _ H.
  now apply andb_prop in H.
Qed.

(** The final component of a filename, with its properties. *)
Lemma final_component (filename : str) :
  exists name,
    snd (Path.split filename) = name /\ ~ In Path.sep name /\
    forall basedir, new_basedir filename basedir = Path.join basedir name.
Proof.
  exists (snd (Path.split filename)).
  split; [reflexivity | ]. split; [apply split_tail_no_sep | reflexivity].
Qed.

(** X8.  The result of [new_basedir] always starts with [basedir], also
    when [filename] is an absolute path: it is [basedir] followed by the
    final component of [filename], with one separator in between unless
    [basedir] is empty or already ends with a separator. *)
Theorem new_basedir_explicit (filename basedir : str) :
  new_basedir filename basedir =
  (if Path.is_empty basedir || Path.endswith_sep basedir
   then basedir ++ snd (Path.split filename)
   else basedir ++ [Path.sep] ++ snd (Path.split filename)) /\
  firstn (List.length basedir) (new_basedir filename basedir) = basedir.
Proof.
  assert (H : new_basedir filename basedir =
              if Path.is_empty basedir || Path.endswith_sep basedir
              then basedir ++ snd (Path.split filename)
              else basedir ++ [Path.sep] ++ snd (Path.split filename)).
  { unfold new_basedir. apply join_relative, split_tail_no_sep. }
  split; [exact H | ]. rewrite H.
  destruct (Path.is_empty basedir || Path.endswith_sep basedir);
    rewrite firstn_app, Nat.sub_diag, firstn_all; cbn [firstn];
    apply app_nil_r.
Qed.

(** X9.  Splitting the result gives back the two parts: when [basedir] is
    not empty and does not end with a separator,
    [os.path.split(new_basedir(filename, basedir))] is [basedir] and the
    final component of [filename]. *)
Theorem split_new_basedir (filename basedir : str) :
  basedir <> [] -> Path.endswith_sep basedir = false ->
  Path.split (new_basedir filename basedir)
  = (basedir, snd (Path.split filename)).
Proof.
  intros Hne Hend.
  destruct (final_component filename) as [name [Hname [Hfree Hjoin]]].
  rewrite Hname, Hjoin, (join_relative basedir name Hfree), Hend.
  destruct basedir as [ | x rest]; [congruence | ]. cbn [Path.is_empty orb].
  set (b := x :: rest) in *.
  unfold Path.split.
  change (b ++ [Path.sep] ++ name) with (b ++ Path.sep :: name).
  rewrite (rfind_last_sep b name Hfree).
  unfold Path.upto, Path.from.
  replace (Z.to_nat (Z.of_nat (List.length b) + 1)) with (S (List.length b))
    by lia.
  assert (Hhead : firstn (S (List.length b)) (b ++ Path.sep :: name)
                  = b ++ [Path.sep]).
  { rewrite firstn_app, firstn_all2 by lia.
    replace (S (List.length b) - List.length b)%nat with 1%nat by lia.
    reflexivity. }
  assert (Htail : skipn (S (List.length b)) (b ++ Path.sep :: name) = name).
  { rewrite skipn_app, skipn_all2 by lia.
    replace (S (List.length b) - List.length b)%nat with 1%nat by lia.
    reflexivity. }
  rewrite Hhead, Htail. f_equal.
  assert (Hall : Path.all_sep (b ++ [Path.sep]) = false).
  { rewrite all_sep_snoc.
    destruct (Path.all_sep b) eqn:Hb; [ | reflexivity].
    rewrite (all_sep_endswith b Hne Hb) in Hend. discriminate. }
  rewrite Hall. replace (Path.is_empty (b ++ [Path.sep])) with false
    by (unfold b; reflexivity).
  cbn [negb andb]. rewrite rstrip_snoc.
  replace (Path.sep =? Path.sep) with true by reflexivity.
  now apply rstrip_no_trailing_sep.
Qed.

Lemma split_new_basedir_witness :
  Path.split (new_basedir (lit "data/raw/clip.wav") (lit "_workdir/tmp"))
  = (lit "_workdir/tmp", snd (Path.split (lit "data/raw/clip.wav"))).
Proof.
  apply (split_new_basedir (lit "data/raw/clip.wav") (lit "_workdir/tmp")).
  - discriminate.
  - reflexivity.
Defined.

(** X10.  Moving twice is moving once: [new_basedir] applied to its own
    result with a second base directory gives what it gives on the original
    filename; in particular it is idempotent for a fixed base directory. *)
Theorem new_basedir_twice (filename basedir1 basedir2 : str) :
  new_basedir (new_basedir filename basedir1) basedir2
  = new_basedir filename basedir2.
Proof.
  destruct (final_component filename) as [name [Hname [Hfree Hjoin]]].
  rewrite (Hjoin basedir1), (Hjoin basedir2).
  rewrite (join_relative basedir1 name Hfree).
  destruct basedir1 as [ | x rest] using rev_ind.
  - cbn [Path.is_empty orb app]. now apply new_basedir_bare.
  - rewrite endswith_sep_snoc.
    replace (Path.is_empty (rest ++ [x])) with false by now destruct rest.
    cbn [orb]. destruct (Z.eqb_spec x Path.sep) as [-> | Hx].
    + rewrite <- app_assoc. cbn [app]. now apply new_basedir_prefixed.
    + rewrite <- app_assoc. cbn [app].
      change (rest ++ x :: Path.sep :: name)
        with (rest ++ [x] ++ Path.sep :: name).
      rewrite app_assoc. now apply new_basedir_prefixed.
Qed.

(** ** Stage numbers of the task graph *)

Import WorkTask.

Lemma tasks_of_app {T : Type} (xs ys : list (element T)) :
  tasks_of (xs ++ ys) = tasks_of xs ++ tasks_of ys.
Proof. apply flat_map_app. Qed.

(** Induction over a task and the tasks it requires. *)
Lemma task_parents_ind (P : task -> Prop) :
  (forall t, (forall p, In p (parents t) -> P p) -> P t) ->
  forall t, P t.
Proof.
  intros H. fix F 1. intros [o r]. apply H.
  assert (Hlist : forall xs : list (element task),
             (forall q, In (IsTask q) xs -> P q) ->
             forall p, In p (tasks_of xs) -> P p).
  { clear. intros xs Hxs p Hin. unfold tasks_of in Hin.
    apply in_flat_map in Hin as [[q | ] [Hx Hq]]; [ | destruct Hq].
    destruct Hq as [<- | []]. now apply Hxs. }
  destruct r as [q | qs | items | ]; unfold parents, elements; cbn [requires].
  - intros p [<- | []]. apply F.
  - apply Hlist. clear Hlist.
    induction qs as [ | [q' | ] qs IH]; intros q Hin; [destruct Hin | | ].
    + destruct Hin as [[= <-] | Hin]; [apply F | now apply IH].
    + destruct Hin as [[=] | Hin]. now apply IH.
  - apply Hlist. clear Hlist.
    induction items as [ | [k [[q' | ] | qs]] items IH]; intros q Hin.
    + destruct Hin.
    + destruct Hin as [[= <-] | Hin]; [apply F | now apply IH].
    + destruct Hin as [[=] | Hin]. now apply IH.
    + cbn [parentasks flat_map snd] in Hin. apply in_app_or in Hin.
      destruct Hin as [Hin | Hin]; [ | now apply IH].
      clear IH. induction qs as [ | [q' | ] qs IHq]; [destruct Hin | | ].
      * destruct Hin as [[= <-] | Hin]; [apply F | now apply IHq].
      * destruct Hin as [[=] | Hin]. now apply IHq.
  - intros p [].
Qed.

(** The greatest element of a non-empty list. *)
Lemma fold_max_spec (rest : list Z) (x : Z) :
  In (fold_left Z.max rest x) (x :: rest) /\
  Forall (fun y => y <= fold_left Z.max rest x) (x :: rest).
Proof.
  revert x. induction rest as [ | y rest IH]; intros x; cbn [fold_left].
  - split; [now left | constructor; [lia | constructor]].
  - destruct (IH (Z.max x y)) as [Hin Hall].
    inversion Hall as [ | ? ? Hmax Hrest]; subst. split.
    + destruct Hin as [Heq | Hin]; [ | right; now right].
      destruct (Z.max_spec x y) as [[_ Hm] | [_ Hm]]; rewrite Hm in Heq |- *.
      * right. now left.
      * now left.
    + constructor; [lia | ]. constructor; [lia | assumption].
Qed.

Lemma py_max_spec (l : list Z) (m : Z) :
  py_max l = Ok m -> In m l /\ Forall (fun y => y <= m) l.
Proof.
  destruct l as [ | x rest]; [discriminate | ].
  cbn [py_max]. intros H. apply Ok_inj in H. subst m. apply fold_max_spec.
Qed.


(** What a comprehension returns and when it raises. *)
Lemma comprehension_returns {A B : Type} (f : A -> result B)
    (l : list A) (bs : list B) :
  comprehension f l = Ok bs <-> Forall2 (fun a b => f a = Ok b) l bs.
Proof.
  revert bs. induction l as [ | a rest IH]; intros bs; cbn [comprehension].
  - split.
    + intros H. apply Ok_inj in H. subst. constructor.
    + intros H. inversion H. reflexivity.
  - split.
    + destruct (f a) as [b | ] eqn:Hb; [ | discriminate]. cbn [bind].
      destruct (comprehension f rest) as [bs' | ] eqn:Hr; [ | discriminate].
      cbn [bind]. intros H. apply Ok_inj in H. subst bs.
      constructor; [assumption | now apply IH].
    + intros H. inversion H as [ | ? b ? bs' Hb Hrest]; subst.
      rewrite Hb. cbn [bind]. apply IH in Hrest.
      change (comprehension f rest = Ok bs') in Hrest.
      now rewrite Hrest.
Qed.

Lemma comprehension_raises {A B : Type} (f : A -> result B)
    (l : list A) (e : exn) :
  comprehension f l = Raise e -> exists a, In a l /\ f a = Raise e.
Proof.
  induction l as [ | a rest IH]; cbn [comprehension]; [discriminate | ].
  destruct (f a) as [b | e0] eqn:Hb; cbn [bind].
  - destruct (comprehension f rest) as [bs' | e1] eqn:Hr; cbn [bind];
      [discriminate | ].
    intros [= <-]. destruct (IH eq_refl) as [a' [Hin Ha']].
    exists a'. split; [now right | assumption].
  - intros [= <-]. exists a. split; [now left | assumption].
Qed.

Lemma comprehension_total {A B : Type} (f : A -> result B) (l : list A) :
  (forall a, In a l -> returns (f a)) -> returns (comprehension f l).
Proof.
  intros H. destruct (comprehension f l) as [bs | e] eqn:Hc; [now exists bs | ].
  destruct (comprehension_raises f l e Hc) as [a [Hin Ha]].
  destruct (H a Hin) as [b Hb]. congruence.
Qed.

Lemma comprehension_app {A B : Type} (f : A -> result B) (l1 l2 : list A) :
  comprehension f (l1 ++ l2) =
  (bs1 <- comprehension f l1 ;; bs2 <- comprehension f l2 ;;
   Ok (bs1 ++ bs2))%py.
Proof.
  induction l1 as [ | a rest IH]; cbn [app comprehension bind].
  - now destruct (comprehension f l2).
  - destruct (f a) as [b | ]; cbn [bind]; [ | reflexivity].
    change ((fix go (l : list A) : result (list B) :=
               match l with
               | [] => Ok []
               | a0 :: rest0 =>
                   bind (f a0) (fun b0 => bind (go rest0)
                                            (fun bs => Ok (b0 :: bs)))
               end) (rest ++ l2))
      with (comprehension f (rest ++ l2)).
    rewrite IH.
    destruct (comprehension f rest) as [bs1 | ]; cbn [bind]; [ | reflexivity].
    now destruct (comprehension f l2).
Qed.


(** The stage numbers taken item by item in the dict case are those of
    [parentasks], in order, and so is the exception. *)
Lemma dict_stages_parentasks
    (items : list (str * (element task + list (element task)))) :
  stage_number (Task None (ReqDict items)) =
  (ns <- comprehension stage_of (parentasks items) ;;
   m <- py_max ns ;;
   Ok (1 + m)%Z)%py.
Proof.
  cbn [stage_number].
  apply (f_equal (fun r => bind r (fun ns => bind (py_max ns)
                                       (fun m => Ok (1 + m))))).
  induction items as [ | [k [x | xs]] items IH].
  - reflexivity.
  - rewrite IH. reflexivity.
  - rewrite IH. cbn [parentasks flat_map snd].
    now rewrite comprehension_app.
Qed.

(** One equation for the three kinds of requirements. *)
Lemma stage_number_unfold (r : requirement task) :
  stage_number (Task None r) =
  match r with
  | ReqOther => Raise ValueError
  | _ =>
      (ns <- comprehension stage_of (elements (Task None r)) ;;
       m <- py_max ns ;;
       Ok (1 + m)%Z)%py
  end.
Proof.
  destruct r as [p | xs | items | ].
  - cbn [stage_number elements requires comprehension stage_of
         getattr_stage_number].
    destruct (stage_number p); reflexivity.
  - reflexivity.
  - apply dict_stages_parentasks.
  - reflexivity.
Qed.

Lemma Forall2_In_l {A B : Type} (R : A -> B -> Prop) (l : list A)
    (l' : list B) (a : A) :
  Forall2 R l l' -> In a l -> exists b, In b l' /\ R a b.
Proof.
  induction 1 as [ | x y l l' Hxy _ IH]; intros Hin; [destruct Hin | ].
  destruct Hin as [<- | Hin].
  - exists y. split; [now left | assumption].
  - destruct (IH Hin) as [b [Hb Hab]]. exists b. split; [now right | assumption].
Qed.

Lemma Forall2_In_r {A B : Type} (R : A -> B -> Prop) (l : list A)
    (l' : list B) (b : B) :
  Forall2 R l l' -> In b l' -> exists a, In a l /\ R a b.
Proof.
  induction 1 as [ | x y l l' Hxy _ IH]; intros Hin; [destruct Hin | ].
  destruct Hin as [<- | Hin].
  - exists x. split; [now left | assumption].
  - destruct (IH Hin) as [a [Ha Hab]]. exists a. split; [now right | assumption].
Qed.

(** An object whose stage number is read successfully is a task. *)
Lemma stage_of_returns (x : element task) (n : Z) :
  stage_of x = Ok n <-> exists p, x = IsTask p /\ stage_number p = Ok n.
Proof.
  destruct x as [p | ]; cbn [stage_of getattr_stage_number].
  - split; [intros H; now exists p | intros [q [[= <-] H]]; exact H].
  - split; [discriminate | intros [q [[=] _]]].
Qed.

(** When the comprehension over the objects returns, they were all tasks,
    and it returned their stage numbers. *)
Lemma comprehension_stage_of (xs : list (element task)) (ns : list Z) :
  comprehension stage_of xs = Ok ns ->
  xs = map IsTask (tasks_of xs) /\
  Forall2 (fun p n => stage_number p = Ok n) (tasks_of xs) ns.
Proof.
  intros H. apply comprehension_returns in H.
  induction H as [ | x n xs ns Hx _ [IHeq IH]].
  - split; [reflexivity | constructor].
  - apply stage_of_returns in Hx as [p [-> Hp]].
    cbn [tasks_of flat_map app map]. fold (tasks_of xs). split.
    + now rewrite <- IHeq.
    + now constructor.
Qed.

(** A task that computes its stage number gets one more than the greatest
    stage number among the tasks it requires. *)
Lemma stage_number_parents (r : requirement task) (n : Z) :
  stage_number (Task None r) = Ok n ->
  (forall p, In p (parents (Task None r)) ->
             exists m, stage_number p = Ok m /\ m < n) /\
  (exists p, In p (parents (Task None r)) /\ stage_number p = Ok (n - 1)).
Proof.
  rewrite stage_number_unfold. unfold parents.
  assert (H : (ns <- comprehension stage_of (elements (Task None r)) ;;
               m <- py_max ns ;; Ok (1 + m)%Z)%py = Ok n ->
              (forall p, In p (tasks_of (elements (Task None r))) ->
                         exists m, stage_number p = Ok m /\ m < n) /\
              (exists p, In p (tasks_of (elements (Task None r))) /\
                         stage_number p = Ok (n - 1))).
  { destruct (comprehension stage_of (elements (Task None r)))
      as [ns | ] eqn:Hc; [ | discriminate].
    cbn [bind]. destruct (py_max ns) as [m | ] eqn:Hm; [ | discriminate].
    cbn [bind]. intros Hn. apply Ok_inj in Hn. subst n.
    apply comprehension_stage_of in Hc as [_ Hc].
    destruct (py_max_spec ns m Hm) as [Hin Hall].
    rewrite Forall_forall in Hall. split.
    - intros p Hp.
      destruct (Forall2_In_l _ _ _ p Hc Hp) as [k [Hk Hpk]].
      exists k. split; [assumption | ]. specialize (Hall k Hk). lia.
    - destruct (Forall2_In_r _ _ _ m Hc Hin) as [p [Hp Hpm]].
      exists p. split; [assumption | ]. rewrite Hpm. f_equal. lia. }
  destruct r; exact H.
Qed.

(** X11.  Stage numbers order the graph: a task that computes its stage
    number (it does not override the property) gets a number strictly
    greater than that of every task it requires, and exactly one more than
    the greatest of them. *)
Theorem stage_number_topological (t : task) (n : Z) :
  stage_override t = None -> stage_number t = Ok n ->
  (forall p, In p (parents t) -> exists m, stage_number p = Ok m /\ m < n) /\
  (exists p, In p (parents t) /\ stage_number p = Ok (n - 1)).
Proof.
  destruct t as [o r]. cbn [stage_override]. intros ->.
  apply stage_number_parents.
Qed.

Lemma stage_number_topological_witness :
  let leaf := Task (Some 0) (ReqList []) in
  let mid := Task None (ReqTask leaf) in
  let top := Task None (ReqDict [(lit "a", inr [IsTask leaf]);
                                 (lit "b", inl (IsTask mid))]) in
  (forall p, In p (parents top) -> exists m, stage_number p = Ok m /\ m < 2) /\
  (exists p, In p (parents top) /\ stage_number p = Ok (2 - 1)).
Proof.
  apply (stage_number_topological
           (Task None (ReqDict
              [(lit "a", inr [IsTask (Task (Some 0) (ReqList []))]);
               (lit "b", inl (IsTask (Task None
                                        (ReqTask (Task (Some 0) (ReqList []))))))]))
           2); reflexivity.
Defined.


(** A list that holds an object that is not a task: reading its stage
    number fails after the first task was read. *)
Example stage_number_not_a_task :
  stage_number
    (Task None (ReqList [IsTask (Task (Some 0) (ReqList [])); NotTask]))
  = Raise AttributeError.
Proof. reflexivity. Qed.

(** The first failure decides: the task under "a" requires nothing and does
    not override its stage number, so its [ValueError] comes before the
    [AttributeError] of the object under "b". *)
Example stage_number_first_failure :
  stage_number
    (Task None (ReqDict [(lit "a", inl (IsTask (Task None (ReqList []))));
                         (lit "b", inr [NotTask])]))
  = Raise ValueError.
Proof. reflexivity. Qed.



(** X13.  Under the convention of the docstring (only tasks without
    requirements override the property, and they override it with 0), the
    stage number of a task is the length of the longest chain of
    requirements below it: it is not negative, a chain of exactly that
    length leads down to a task that requires nothing and has stage 0, and
    no chain of requirements that starts at the task, wherever it ends, is
    longer. *)
Theorem stage_number_longest_chain (t : task) (n : Z) :
  zero_leaves t -> stage_number t = Ok n ->
  0 <= n /\
  (exists leaf, chain t (Z.to_nat n) leaf /\
                parents leaf = [] /\ stage_number leaf = Ok 0) /\
  (forall k q, chain t k q -> Z.of_nat k <= n).
Proof.
  revert n. induction t as [[[o | ] r] IH] using task_parents_ind;
    intros n Hz Hn.
  - inversion Hz as [? [_ Hnone] | ]; subst.
    cbn [stage_number] in Hn. apply Ok_inj in Hn. subst n.
    assert (Hp : parents (Task (Some 0) r) = [])
      by (unfold parents; now rewrite Hnone).
    split; [lia | ]. split.
    + exists (Task (Some 0) r). split; [constructor | ]. now split.
    + intros k q Hk. inversion Hk as [ | ? p k' ? Hin _]; subst; [lia | ].
      rewrite Hp in Hin. destruct Hin.
  - inversion Hz as [ | ? Hzp]; subst.
    destruct (stage_number_parents r n Hn) as [Hall [p [Hp Hpn]]].
    destruct (IH p Hp (n - 1) (Hzp p Hp) Hpn) as [Hp0 [[leaf [Hc Hleaf]] _]].
    split; [lia | ]. split.
    + exists leaf. split; [ | assumption].
      replace (Z.to_nat n) with (S (Z.to_nat (n - 1))) by lia.
      now apply (chain_step _ p).
    + intros k q Hk. inversion Hk as [ | ? p' k' ? Hp' Hc']; subst; [lia | ].
      destruct (Hall p' Hp') as [m [Hm Hlt]].
      destruct (IH p' Hp' m (Hzp p' Hp') Hm) as [_ [_ Hmax]].
      specialize (Hmax k' q Hc'). lia.
Qed.

Lemma stage_number_longest_chain_witness :
  let leaf := Task (Some 0) (ReqList []) in
  let mid := Task None (ReqTask leaf) in
  let top := Task None (ReqDict [(lit "a", inr [IsTask leaf]);
                                 (lit "b", inl (IsTask mid))]) in
  0 <= 2 /\
  (exists leaf', chain top (Z.to_nat 2) leaf' /\
                 parents leaf' = [] /\ stage_number leaf' = Ok 0) /\
  (forall k q, chain top k q -> Z.of_nat k <= 2).
Proof.
  apply (stage_number_longest_chain
           (Task None (ReqDict
              [(lit "a", inr [IsTask (Task (Some 0) (ReqList []))]);
               (lit "b", inl (IsTask (Task None
                                        (ReqTask (Task (Some 0) (ReqList []))))))]))
           2); [ | reflexivity].
  apply zero_leaves_node. intros p [<- | [<- | []]].
  - apply zero_leaves_leaf. split; [discriminate | reflexivity].
  - apply zero_leaves_node. intros p [<- | []].
    apply zero_leaves_leaf. split; [discriminate | reflexivity].
Defined.

(** ** Names of marker files and work directories *)

(** Stage numbers up to 99 are written with exactly two digits. *)
Lemma format_02d_two_digits (n : Z) :
  0 <= n <= 99 -> format_02d n = [48 + n / 10; 48 + n mod 10].
Proof.
  intros Hn.
  assert (H : forallb (fun i => if list_eq_dec Z.eq_dec (format_02d i)
                                     [48 + i / 10; 48 + i mod 10]
                                then true else false)
                (map Z.of_nat (seq 0 100)) = true)
    by (vm_compute; reflexivity).
  rewrite forallb_forall in H. specialize (H n).
  destruct (list_eq_dec Z.eq_dec (format_02d n) [48 + n / 10; 48 + n mod 10]);
    [assumption | ].
  discriminate H. apply in_map_iff. exists (Z.to_nat n).
  split; [lia | apply in_seq; lia].
Qed.

Lemma str_ltb_two_digits (m n : Z) (x y : str) :
  0 <= m -> m < n -> n <= 99 ->
  str_ltb (format_02d m ++ x) (format_02d n ++ y) = true.
Proof.
  intros Hm Hmn Hn. rewrite !format_02d_two_digits by lia.
  cbn [app str_ltb].
  destruct (Z.ltb_spec (48 + m / 10) (48 + n / 10)); [reflexivity | ].
  destruct (Z.eqb_spec (48 + m / 10) (48 + n / 10)) as [Heq | Hne];
    [ | exfalso; Z.div_mod_to_equations; lia].
  destruct (Z.ltb_spec (48 + m mod 10) (48 + n mod 10)); [reflexivity | ].
  exfalso. Z.div_mod_to_equations. lia.
Qed.

(** X14.  Names sort in dependency order: for stage numbers from 0 to 99
    the marker file and the work directory of a task that computes its stage
    number come strictly after those of every task it requires in the order
    of [str], whatever the task ids and names are. *)
Theorem names_sorted_by_stage (t p : task) (n m : Z)
    (id_t id_p name_t name_p : str) :
  stage_override t = None -> In p (parents t) ->
  stage_number t = Ok n -> stage_number p = Ok m ->
  0 <= m -> n <= 99 ->
  exists out_p out_t dir_p dir_t,
    output_name p id_p = Ok out_p /\ output_name t id_t = Ok out_t /\
    str_ltb out_p out_t = true /\
    workdir_name p name_p = Ok dir_p /\ workdir_name t name_t = Ok dir_t /\
    str_ltb dir_p dir_t = true.
Proof.
  intros Ho Hp Hn Hm Hm0 Hn99. destruct t as [o r]. cbn [stage_override] in Ho.
  subst o. destruct (stage_number_parents r n Hn) as [Hall _].
  destruct (Hall p Hp) as [m' [Hm' Hlt]].
  rewrite Hm in Hm'. apply Ok_inj in Hm'. subst m'.
  unfold output_name, workdir_name. rewrite Hn, Hm. cbn [bind].
  do 4 eexists. repeat (split; [reflexivity | ]).
  split; [now apply str_ltb_two_digits | ].
  repeat (split; [reflexivity | ]). now apply str_ltb_two_digits.
Qed.

Lemma names_sorted_by_stage_witness :
  let leaf := Task (Some 0) (ReqList []) in
  let top := Task None (ReqList [IsTask leaf]) in
  exists out_p out_t dir_p dir_t,
    output_name leaf (lit "Download_1") = Ok out_p /\
    output_name top (lit "Extract_2") = Ok out_t /\
    str_ltb out_p out_t = true /\
    workdir_name leaf (lit "Download") = Ok dir_p /\
    workdir_name top (lit "Extract") = Ok dir_t /\
    str_ltb dir_p dir_t = true.
Proof.
  apply (names_sorted_by_stage
           (Task None (ReqList [IsTask (Task (Some 0) (ReqList []))]))
           (Task (Some 0) (ReqList [])) 1 0);
    try reflexivity; try lia.
  now left.
Defined.

Lemma split_at_first {A : Type} (x : A) (a b r r' : list A) :
  ~ In x a -> ~ In x b -> a ++ x :: r = b ++ x :: r' -> a = b /\ r = r'.
Proof.
  revert b. induction a as [ | y a IH]; intros [ | z b] Ha Hb E; cbn [app] in E.
  - apply cons_inj in E as [_ E]. auto.
  - apply cons_inj in E as [E _]. exfalso. apply Hb. now left.
  - apply cons_inj in E as [E _]. exfalso. apply Ha. now left.
  - apply cons_inj in E as [-> E].
    destruct (IH b) as [-> ->]; auto.
    + intros H. apply Ha. now right.
    + intros H. apply Hb. now right.
Qed.

(** X15.  [versioned_task_name] fails (with [KeyError]) exactly when the
    config lacks ["task_name"] or ["version"]; and two configs whose task
    names contain no hyphen get the same versioned name only if they have
    the same task name and the same version. *)
Theorem versioned_task_name_unambiguous (c1 c2 : list (str * str)) :
  (versioned_task_name c1 = None <->
   lookup (lit "task_name") c1 = None \/ lookup (lit "version") c1 = None) /\
  forall n1 v1 n2 v2,
    lookup (lit "task_name") c1 = Some n1 -> lookup (lit "version") c1 = Some v1 ->
    lookup (lit "task_name") c2 = Some n2 -> lookup (lit "version") c2 = Some v2 ->
    ~ In 45 n1 -> ~ In 45 n2 ->
    versioned_task_name c1 = versioned_task_name c2 ->
    n1 = n2 /\ v1 = v2.
Proof.
  split.
  - unfold versioned_task_name.
    destruct (lookup (lit "task_name") c1); [ | tauto].
    destruct (lookup (lit "version") c1); [ | tauto].
    split; [discriminate | intros [H | H]; discriminate].
  - intros n1 v1 n2 v2 Hn1 Hv1 Hn2 Hv2 Hf1 Hf2.
    unfold versioned_task_name. rewrite Hn1, Hv1, Hn2, Hv2.
    intros [= E]. now apply (split_at_first 45 n1 n2 v1 v2).
Qed.

Lemma versioned_task_name_unambiguous_witness :
  lit "speech" = lit "speech" /\ lit "v1-full" = lit "v1-full".
Proof.
  apply (proj2 (versioned_task_name_unambiguous
                  [(lit "task_name", lit "speech"); (lit "version", lit "v1-full")]
                  [(lit "version", lit "v1-full"); (lit "task_name", lit "speech")])
           (lit "speech") (lit "v1-full") (lit "speech") (lit "v1-full"));
    try reflexivity;
    cbn [lit list_ascii_of_string map In]; intros H;
    repeat (destruct H as [H | H]; [discriminate H | ]); exact H.
Defined.
